(** * RelaxationMusicPlayer (src/a2/script.js): a shallow embedding

    The page script is one class, [RelaxationMusicPlayer], whose methods are
    event handlers over a handful of fields and DOM nodes.  The handlers fall
    into three groups that touch disjoint fields: the playlist and playback
    controls, the focus timer, and the todo list.  Each group is embedded in a
    module of its own, as functions from state to state; the DOM properties a
    handler writes (text contents, class lists, input values) are fields of
    that state, and the host's timer table ([setInterval], [setTimeout],
    [clearInterval]) is part of the timer's state.

    JavaScript numbers that the code only ever uses as integers (indices,
    minutes, seconds, ids) are [Z]; where the code can produce [NaN]
    (a remainder by zero, [parseInt] of a missing attribute) the value is a
    [JS.number].  Numbers that are fractional (media times, what
    [Math.random] returns) are doubles, a finite one being the rational it
    denotes; the texts the user types are sequences of UTF-16 code units. *)

From Stdlib Require Import ZArith QArith Qround Qabs Qpower Lia Lqa DecimalString.
From Stdlib Require DecimalPos.
From stdpp Require Import base list sorting strings gmap.

Open Scope Z_scope.

#[local] Set Warnings "-clear-no-such-hyp".

(** ** The fragments of the JavaScript library the script relies on *)

Module JS.

(** A number that is an integer or [NaN]. *)
Inductive number :=
| Int (z : Z)
| NaN.

(** [a % b] on integers: the remainder has the sign of the dividend, and a
    zero divisor gives [NaN]. *)
Definition rem (a b : Z) : number :=
  if b =? 0 then NaN else Int (Z.rem a b).

(** [a === b] where [b] is an integer: [NaN] is equal to nothing. *)
Definition strict_eq (a : number) (b : Z) : bool :=
  match a with
  | Int z => z =? b
  | NaN => false
  end.

(** [Number.prototype.toString] on an integer: decimal digits, with a
    leading minus sign for a negative one.  (From 10^21 on JavaScript
    switches to exponent notation; no count, index or id of the page
    comes near, and [Number_toString] below prints the minutes of a media
    time, which can.) *)
Definition toString (z : Z) : string :=
  NilZero.string_of_int (Z.to_int z).

(** [n] characters of [pad] repeated. *)
Fixpoint filler (n : nat) (pad cur : string) : string :=
  match n with
  | O => EmptyString
  | S n' =>
      match cur with
      | String c rest => String c (filler n' pad rest)
      | EmptyString =>
          match pad with
          | String c rest => String c (filler n' pad rest)
          | EmptyString => EmptyString
          end
      end
  end.

(** [String.prototype.padStart (targetLength, padString)]. *)
Definition padStart (targetLength : nat) (padString s : string) : string :=
  if (targetLength <=? String.length s)%nat then s
  else filler (targetLength - String.length s) padString padString +:+ s.

(** A string value is a sequence of UTF-16 code units.  Texts the user
    types are kept in this form; [units] gives the string value of a
    literal of ASCII characters, one code unit each. *)
Definition str := list N.

Fixpoint units (s : string) : str :=
  match s with
  | String c rest => N.of_nat (Ascii.nat_of_ascii c) :: units rest
  | EmptyString => []
  end.

(** White space as [String.prototype.trim] and [parseInt] see it: the
    code units of the WhiteSpace and LineTerminator productions, that is
    tab, line feed, vertical tab, form feed, carriage return, space,
    no-break space (U+00A0), the byte order mark (U+FEFF), the line and
    paragraph separators (U+2028, U+2029) and the other space separators
    of Unicode (U+1680, U+2000 to U+200A, U+202F, U+205F, U+3000). *)
Definition isWhiteSpace (c : N) : bool :=
  ((9 <=? c) && (c <=? 13) || (c =? 32) || (c =? 160) || (c =? 5760)
   || (8192 <=? c) && (c <=? 8202) || (c =? 8232) || (c =? 8233)
   || (c =? 8239) || (c =? 8287) || (c =? 12288) || (c =? 65279))%N.

Fixpoint trimStart (s : str) : str :=
  match s with
  | c :: rest => if isWhiteSpace c then trimStart rest else s
  | [] => []
  end.

(** [trimEnd] drops a code unit when it is white space and everything
    after it has been dropped. *)
Fixpoint trimEnd (s : str) : str :=
  match s with
  | c :: rest =>
      match trimEnd rest with
      | [] => if isWhiteSpace c then [] else [c]
      | r => c :: r
      end
  | [] => []
  end.

Definition trim (s : str) : str := trimEnd (trimStart s).

(** *** Doubles

    A finite double is the rational number it denotes.  Doubles have 53
    significant bits and exponents from -1074 up; [ulp x] is the distance
    between neighbouring doubles at the size of [x], and [round64 x] is
    the double nearest to [x], a tie going to the even significand: the
    rounding every arithmetic operation of JavaScript ends with.  (A
    result of size 2^1024 or more would be an infinity; the script
    divides by 60 and multiplies a fraction below 1 by the length of an
    array, which keeps results in range.) *)
Definition pow2 (e : Z) : Q := (2 ^ e)%Q.

(** The exponent [e] with [2^e <= x < 2^(e+1)], for a positive [x]. *)
Definition Qlog2 (x : Q) : Z :=
  let e := Z.log2 (Qnum x) - Z.log2 (Z.pos (Qden x)) in
  if Qle_bool (pow2 e) x then e else e - 1.

Definition roundHalfEven (m : Q) : Z :=
  let f := Qfloor m in
  match (m - inject_Z f ?= 1 # 2)%Q with
  | Lt => f
  | Gt => f + 1
  | Eq => if Z.even f then f else f + 1
  end.

Definition ulp (x : Q) : Q := pow2 (Z.max (Qlog2 (Qabs x) - 52) (-1074)).

Definition round64 (x : Q) : Q :=
  if Qeq_bool x 0 then 0%Q
  else (inject_Z (roundHalfEven (x / ulp x)) * ulp x)%Q.

(** The largest double, and the rationals that are doubles. *)
Definition maxDouble : Q := inject_Z ((2 ^ 53 - 1) * 2 ^ 971).

Definition is_double (x : Q) : bool :=
  Qeq_bool (round64 x) x && Qle_bool (Qabs x) maxDouble.

(** A number: a finite double, an infinity or [NaN]. *)
Inductive double :=
| Num (q : Q)
| Inf
| NegInf
| Nan.

(** [Math.trunc] on a finite number. *)
Definition Qtrunc (x : Q) : Z :=
  if Qle_bool 0 x then Qfloor x else Qceiling x.

(** [a % b] on finite numbers: the quotient is rounded towards zero and
    the remainder, which is a double again, is exact. *)
Definition Qrem (a b : Q) : Q :=
  (a - b * inject_Z (Qtrunc (a / b)))%Q.

(** [a / b] and [a % b] for a finite divisor [b >= 1]. *)
Definition divide (a : double) (b : Q) : double :=
  match a with
  | Num q => Num (round64 (q / b))
  | Inf => Inf
  | NegInf => NegInf
  | Nan => Nan
  end.

Definition remainder (a : double) (b : Q) : double :=
  match a with
  | Num q => Num (Qrem q b)
  | _ => Nan
  end.

(** What [Math.floor] returns: an integer, or its argument when that is
    no finite number. *)
Inductive floored :=
| Whole (z : Z)
| WholeInf
| WholeNegInf
| WholeNan.

Definition Math_floor (x : double) : floored :=
  match x with
  | Num q => Whole (Qfloor q)
  | Inf => WholeInf
  | NegInf => WholeNegInf
  | Nan => WholeNan
  end.

(** *** Printing a number

    [Number.prototype.toString] prints the shortest decimal numeral that
    still denotes the number, that is, that rounds to it; of several with
    the same number of digits it prints the nearest.  For an integer up
    to 2^53 in size that is the integer's own numeral.  Beyond, integers
    that are doubles are more than 1 apart, and fewer digits can do:
    [shortestAt z d k] is the multiple of [10^(d-k)] nearest to [z] that
    rounds to [z], if there is one, and [shortest z] takes the least
    number [k] of leading digits for which there is. *)
Definition decimalLength (z : Z) : Z := Z.of_nat (String.length (toString z)).

Definition roundsTo (c z : Z) : bool :=
  Qeq_bool (round64 (inject_Z c)) (inject_Z z).

Definition shortestAt (z d k : Z) : option Z :=
  let p := 10 ^ (d - k) in
  let lo := z / p * p in
  let hi := lo + p in
  match roundsTo lo z, roundsTo hi z with
  | true, true =>
      Some (if z - lo <? hi - z then lo
            else if hi - z <? z - lo then hi
            else if Z.even (z / p) then lo else hi)
  | true, false => Some lo
  | false, true => Some hi
  | false, false => None
  end.

Fixpoint shortestFrom (fuel : nat) (z d k : Z) : Z :=
  match fuel with
  | O => z
  | S fuel =>
      match shortestAt z d k with
      | Some v => v
      | None => shortestFrom fuel z d (k + 1)
      end
  end.

Definition shortest (z : Z) : Z :=
  let d := decimalLength z in
  shortestFrom (Z.to_nat d) z d 1.

Fixpoint stripZeros (s : string) : string :=
  match s with
  | String c rest =>
      match stripZeros rest with
      | EmptyString =>
          if Ascii.eqb c (Ascii.ascii_of_nat 48) then EmptyString
          else String c EmptyString
      | r => String c r
      end
  | EmptyString => EmptyString
  end.

(** Up to 21 digits are printed in full; longer numerals are printed
    with an exponent, as in [1.1805916207174113e+21]. *)
Definition exponentForm (v : Z) : string :=
  match stripZeros (toString v) with
  | String c EmptyString =>
      String c ("e+" +:+ toString (decimalLength v - 1))
  | String c rest =>
      String c ("." +:+ rest +:+ "e+" +:+ toString (decimalLength v - 1))
  | EmptyString => EmptyString
  end.

Definition bigToString (z : Z) : string :=
  let v := shortest z in
  if decimalLength v <=? 21 then toString v else exponentForm v.

Definition Number_toString (z : Z) : string :=
  if Z.abs z <=? 2 ^ 53 then toString z
  else if z <? 0 then "-" +:+ bigToString (- z)
  else bigToString z.

Definition floored_toString (x : floored) : string :=
  match x with
  | Whole z => Number_toString z
  | WholeInf => "Infinity"
  | WholeNegInf => "-Infinity"
  | WholeNan => "NaN"
  end.

(** [DOMTokenList.remove] and [DOMTokenList.add] on a class list. *)
Definition classList_remove (c : string) (l : list string) : list string :=
  filter (λ x, x ≠ c) l.

Definition classList_add (c : string) (l : list string) : list string :=
  if decide (c ∈ l) then l else l ++ [c].

Definition classList_contains (c : string) (l : list string) : bool :=
  bool_decide (c ∈ l).

End JS.

(** ** The focus timer *)

Module Timer.

Record state := mkState {
  timerMinutes : Z;
  timerSeconds : Z;
  (** [null], or the handle [setInterval] returned *)
  timerInterval : option positive;
  timerRunning : bool;
  (** [timerDisplay.textContent] *)
  timerDisplay : string;
  (** [timerStart.textContent] and [timerStart.disabled] *)
  timerStartText : string;
  timerStartDisabled : bool;
  (** the host's timer table: the intervals that still fire, the one-shot
      timeouts that are pending, and the next handle it hands out *)
  intervals : gset positive;
  timeouts : gset positive;
  nextHandle : positive
}.

Definition set_timerMinutes (m : Z) (s : state) : state :=
  mkState m (timerSeconds s) (timerInterval s) (timerRunning s)
    (timerDisplay s) (timerStartText s) (timerStartDisabled s)
    (intervals s) (timeouts s) (nextHandle s).

Definition set_timerSeconds (n : Z) (s : state) : state :=
  mkState (timerMinutes s) n (timerInterval s) (timerRunning s)
    (timerDisplay s) (timerStartText s) (timerStartDisabled s)
    (intervals s) (timeouts s) (nextHandle s).

Definition set_timerInterval (h : option positive) (s : state) : state :=
  mkState (timerMinutes s) (timerSeconds s) h (timerRunning s)
    (timerDisplay s) (timerStartText s) (timerStartDisabled s)
    (intervals s) (timeouts s) (nextHandle s).

Definition set_timerRunning (b : bool) (s : state) : state :=
  mkState (timerMinutes s) (timerSeconds s) (timerInterval s) b
    (timerDisplay s) (timerStartText s) (timerStartDisabled s)
    (intervals s) (timeouts s) (nextHandle s).

Definition set_timerDisplay (t : string) (s : state) : state :=
  mkState (timerMinutes s) (timerSeconds s) (timerInterval s) (timerRunning s)
    t (timerStartText s) (timerStartDisabled s)
    (intervals s) (timeouts s) (nextHandle s).

Definition set_timerStartText (t : string) (s : state) : state :=
  mkState (timerMinutes s) (timerSeconds s) (timerInterval s) (timerRunning s)
    (timerDisplay s) t (timerStartDisabled s)
    (intervals s) (timeouts s) (nextHandle s).

Definition set_timerStartDisabled (b : bool) (s : state) : state :=
  mkState (timerMinutes s) (timerSeconds s) (timerInterval s) (timerRunning s)
    (timerDisplay s) (timerStartText s) b
    (intervals s) (timeouts s) (nextHandle s).

(** [setInterval (callback, 1000)]: the callback is always the tick below,
    so the table records the handle alone. *)
Definition setInterval (s : state) : positive * state :=
  let h := nextHandle s in
  (h, mkState (timerMinutes s) (timerSeconds s) (timerInterval s) (timerRunning s)
        (timerDisplay s) (timerStartText s) (timerStartDisabled s)
        ({[h]} ∪ intervals s) (timeouts s) (Pos.succ h)).

Definition clearInterval (h : positive) (s : state) : state :=
  mkState (timerMinutes s) (timerSeconds s) (timerInterval s) (timerRunning s)
    (timerDisplay s) (timerStartText s) (timerStartDisabled s)
    (intervals s ∖ {[h]}) (timeouts s) (nextHandle s).

(** [setTimeout (() => this.resetTimer (), 4000)]; the handle is dropped by
    the caller. *)
Definition setTimeout (s : state) : state :=
  let h := nextHandle s in
  mkState (timerMinutes s) (timerSeconds s) (timerInterval s) (timerRunning s)
    (timerDisplay s) (timerStartText s) (timerStartDisabled s)
    (intervals s) ({[h]} ∪ timeouts s) (Pos.succ h).

Definition timeout_done (h : positive) (s : state) : state :=
  mkState (timerMinutes s) (timerSeconds s) (timerInterval s) (timerRunning s)
    (timerDisplay s) (timerStartText s) (timerStartDisabled s)
    (intervals s) (timeouts s ∖ {[h]}) (nextHandle s).

Definition updateTimerDisplay (s : state) : state :=
  set_timerDisplay
    (JS.padStart 2 "0" (JS.toString (timerMinutes s)) +:+ ":" +:+
     JS.padStart 2 "0" (JS.toString (timerSeconds s))) s.

Definition pauseTimer (s : state) : state :=
  if timerRunning s then
    let s := set_timerRunning false s in
    let s := set_timerStartText "Start" s in
    let s := set_timerStartDisabled false s in
    match timerInterval s with
    | Some h => set_timerInterval None (clearInterval h s)
    | None => s
    end
  else s.

(** The restyling of the [.timer-btn] buttons that ends [resetTimer] and
    [setTimer] writes inline styles only, which no field above mirrors. *)
Definition resetTimer (s : state) : state :=
  let s := pauseTimer s in
  let s := set_timerMinutes 60 s in
  let s := set_timerSeconds 0 s in
  let s := set_timerStartText "Start" s in
  let s := set_timerStartDisabled false s in
  updateTimerDisplay s.

Definition setTimer (minutes : Z) (s : state) : state :=
  let s := pauseTimer s in
  let s := set_timerMinutes minutes s in
  let s := set_timerSeconds 0 s in
  let s := set_timerStartText "Start" s in
  let s := set_timerStartDisabled false s in
  updateTimerDisplay s.

(** The notification and the chime that end [timerComplete] reach the
    platform only; the chime's failure is caught. *)
Definition timerComplete (s : state) : state :=
  let s := pauseTimer s in
  let s := set_timerDisplay "00:00" s in
  let s := set_timerStartText "Start" s in
  let s := set_timerStartDisabled false s in
  let s := set_timerDisplay "Session Complete!" s in
  setTimeout s.

(** The callback [startTimer] hands to [setInterval]. *)
Definition tick (s : state) : state :=
  if timerSeconds s =? 0 then
    if timerMinutes s =? 0 then timerComplete s
    else
      let s := set_timerMinutes (timerMinutes s - 1) s in
      let s := set_timerSeconds 59 s in
      updateTimerDisplay s
  else
    let s := set_timerSeconds (timerSeconds s - 1) s in
    updateTimerDisplay s.

Definition startTimer (s : state) : state :=
  if negb (timerRunning s) && ((timerMinutes s >? 0) || (timerSeconds s >? 0)) then
    let s := set_timerRunning true s in
    let s := set_timerStartText "Running..." s in
    let s := set_timerStartDisabled true s in
    let (h, s) := setInterval s in
    set_timerInterval (Some h) s
  else s.

(** The host runs the callback of a handle only while the handle is in its
    table; a timeout leaves the table when it runs. *)
Definition interval_fires (h : positive) (s : state) : state :=
  if decide (h ∈ intervals s) then tick s else s.

Definition timeout_fires (h : positive) (s : state) : state :=
  if decide (h ∈ timeouts s) then resetTimer (timeout_done h s) else s.

(** The three preset buttons are the only callers of [setTimer]. *)
Inductive preset := Preset60 | Preset30 | Preset15.

Definition preset_minutes (p : preset) : Z :=
  match p with
  | Preset60 => 60
  | Preset30 => 30
  | Preset15 => 15
  end.

(** What can happen to the timer: a click on one of its buttons, or the
    host running one of its callbacks. *)
Inductive event :=
| ClickStart
| ClickPause
| ClickReset
| ClickPreset (p : preset)
| IntervalFires (h : positive)
| TimeoutFires (h : positive).

Definition handle (e : event) (s : state) : state :=
  match e with
  | ClickStart => startTimer s
  | ClickPause => pauseTimer s
  | ClickReset => resetTimer s
  | ClickPreset p => setTimer (preset_minutes p) s
  | IntervalFires h => interval_fires h s
  | TimeoutFires h => timeout_fires h s
  end.

Definition run (es : list event) (s : state) : state :=
  foldl (λ s e, handle e s) s es.

(** The timer as the constructor leaves it: the fields' initial values,
    the display written by [initializePlayer], the start button as the
    markup has it, and a host that has handed out no handle yet. *)
Definition initial (startText : string) (startDisabled : bool) : state :=
  updateTimerDisplay
    (mkState 60 0 None false "" startText startDisabled ∅ ∅ 1%positive).

Definition remaining (s : state) : Z * Z := (timerMinutes s, timerSeconds s).

(** The Completed state of the timer: stopped, with the completion message
    in the display. *)
Definition Completed (s : state) : Prop :=
  timerRunning s = false ∧ timerDisplay s = "Session Complete!"%string.

(** Remaining time is a number of minutes and a number of seconds below a
    minute, neither negative. *)
Definition time_ok (s : state) : Prop :=
  0 ≤ timerMinutes s ∧ 0 ≤ timerSeconds s ≤ 59.

(** The handle is set exactly while the timer runs, it is the only interval
    the host still fires, and the host has handed out every handle in its
    table already. *)
Definition handle_ok (s : state) : Prop :=
  (timerRunning s = true ↔ is_Some (timerInterval s))
  ∧ intervals s = from_option singleton ∅ (timerInterval s)
  ∧ (∀ h, h ∈ intervals s → (h < nextHandle s)%positive).

End Timer.


(** ** The playlist and the playback controls *)

Module Player.

(** An element of the page, as far as the playlist code reads or writes
    it: its class list and the two data attributes of a track item. *)
Record Element := mkElement {
  classList : list string;
  dataset_src : string;
  dataset_title : string
}.

Definition set_classList (l : list string) (e : Element) : Element :=
  mkElement l (dataset_src e) (dataset_title e).

(** An entry of [this.tracks]; [element] refers to an element of the page
    by its position in document order. *)
Record Track := mkTrack {
  src : string;
  title : string;
  element : nat
}.

Record state := mkState {
  (** the elements of the page, in document order *)
  document : list Element;
  tracks : list Track;
  currentTrackIndex : Z;
  isPlaying : bool;
  isShuffled : bool;
  isRepeating : bool;
  (** [audio.src], and the calls of [audio.play ()] and [audio.pause ()]
      made so far *)
  audio_src : string;
  audio_requests : list bool;
  (** [trackTitle.textContent] *)
  trackTitle : string;
  (** [progressBar.value], [progressFill.style.width], the class lists of
      [progressFill] and [progressContainer], [currentTimeSpan.textContent] *)
  progressBar_value : string;
  progressFill_width : string;
  progressFill_classList : list string;
  progressContainer_classList : list string;
  currentTimeSpan : string
}.

Definition trackCount (p : state) : Z := Z.of_nat (length (tracks p)).

Definition set_document (d : list Element) (p : state) : state :=
  mkState d (tracks p) (currentTrackIndex p) (isPlaying p) (isShuffled p)
    (isRepeating p) (audio_src p) (audio_requests p) (trackTitle p)
    (progressBar_value p) (progressFill_width p) (progressFill_classList p)
    (progressContainer_classList p) (currentTimeSpan p).

Definition set_tracks (t : list Track) (p : state) : state :=
  mkState (document p) t (currentTrackIndex p) (isPlaying p) (isShuffled p)
    (isRepeating p) (audio_src p) (audio_requests p) (trackTitle p)
    (progressBar_value p) (progressFill_width p) (progressFill_classList p)
    (progressContainer_classList p) (currentTimeSpan p).

Definition set_currentTrackIndex (i : Z) (p : state) : state :=
  mkState (document p) (tracks p) i (isPlaying p) (isShuffled p)
    (isRepeating p) (audio_src p) (audio_requests p) (trackTitle p)
    (progressBar_value p) (progressFill_width p) (progressFill_classList p)
    (progressContainer_classList p) (currentTimeSpan p).

Definition set_isPlaying (b : bool) (p : state) : state :=
  mkState (document p) (tracks p) (currentTrackIndex p) b (isShuffled p)
    (isRepeating p) (audio_src p) (audio_requests p) (trackTitle p)
    (progressBar_value p) (progressFill_width p) (progressFill_classList p)
    (progressContainer_classList p) (currentTimeSpan p).

Definition set_isShuffled (b : bool) (p : state) : state :=
  mkState (document p) (tracks p) (currentTrackIndex p) (isPlaying p) b
    (isRepeating p) (audio_src p) (audio_requests p) (trackTitle p)
    (progressBar_value p) (progressFill_width p) (progressFill_classList p)
    (progressContainer_classList p) (currentTimeSpan p).

Definition set_isRepeating (b : bool) (p : state) : state :=
  mkState (document p) (tracks p) (currentTrackIndex p) (isPlaying p)
    (isShuffled p) b (audio_src p) (audio_requests p) (trackTitle p)
    (progressBar_value p) (progressFill_width p) (progressFill_classList p)
    (progressContainer_classList p) (currentTimeSpan p).

Definition set_audio_src (u : string) (p : state) : state :=
  mkState (document p) (tracks p) (currentTrackIndex p) (isPlaying p)
    (isShuffled p) (isRepeating p) u (audio_requests p) (trackTitle p)
    (progressBar_value p) (progressFill_width p) (progressFill_classList p)
    (progressContainer_classList p) (currentTimeSpan p).

Definition set_trackTitle (t : string) (p : state) : state :=
  mkState (document p) (tracks p) (currentTrackIndex p) (isPlaying p)
    (isShuffled p) (isRepeating p) (audio_src p) (audio_requests p) t
    (progressBar_value p) (progressFill_width p) (progressFill_classList p)
    (progressContainer_classList p) (currentTimeSpan p).

Definition set_progressBar_value (v : string) (p : state) : state :=
  mkState (document p) (tracks p) (currentTrackIndex p) (isPlaying p)
    (isShuffled p) (isRepeating p) (audio_src p) (audio_requests p)
    (trackTitle p) v (progressFill_width p) (progressFill_classList p)
    (progressContainer_classList p) (currentTimeSpan p).

Definition set_progressFill_width (w : string) (p : state) : state :=
  mkState (document p) (tracks p) (currentTrackIndex p) (isPlaying p)
    (isShuffled p) (isRepeating p) (audio_src p) (audio_requests p)
    (trackTitle p) (progressBar_value p) w (progressFill_classList p)
    (progressContainer_classList p) (currentTimeSpan p).

Definition set_progressFill_classList (l : list string) (p : state) : state :=
  mkState (document p) (tracks p) (currentTrackIndex p) (isPlaying p)
    (isShuffled p) (isRepeating p) (audio_src p) (audio_requests p)
    (trackTitle p) (progressBar_value p) (progressFill_width p) l
    (progressContainer_classList p) (currentTimeSpan p).

Definition set_progressContainer_classList (l : list string) (p : state) : state :=
  mkState (document p) (tracks p) (currentTrackIndex p) (isPlaying p)
    (isShuffled p) (isRepeating p) (audio_src p) (audio_requests p)
    (trackTitle p) (progressBar_value p) (progressFill_width p)
    (progressFill_classList p) l (currentTimeSpan p).

Definition set_currentTimeSpan (t : string) (p : state) : state :=
  mkState (document p) (tracks p) (currentTrackIndex p) (isPlaying p)
    (isShuffled p) (isRepeating p) (audio_src p) (audio_requests p)
    (trackTitle p) (progressBar_value p) (progressFill_width p)
    (progressFill_classList p) (progressContainer_classList p) t.

(** [audio.play ()] and [audio.pause ()], recorded as [true] and [false]. *)
Definition audio_play (p : state) : state :=
  mkState (document p) (tracks p) (currentTrackIndex p) (isPlaying p)
    (isShuffled p) (isRepeating p) (audio_src p) (audio_requests p ++ [true])
    (trackTitle p) (progressBar_value p) (progressFill_width p)
    (progressFill_classList p) (progressContainer_classList p)
    (currentTimeSpan p).

Definition audio_pause (p : state) : state :=
  mkState (document p) (tracks p) (currentTrackIndex p) (isPlaying p)
    (isShuffled p) (isRepeating p) (audio_src p) (audio_requests p ++ [false])
    (trackTitle p) (progressBar_value p) (progressFill_width p)
    (progressFill_classList p) (progressContainer_classList p)
    (currentTimeSpan p).

(** Whether the element at position [i] of the page carries class [cls]. *)
Definition has_class (cls : string) (doc : list Element) (i : nat) : bool :=
  match doc !! i with
  | Some e => JS.classList_contains cls (classList e)
  | None => false
  end.

(** [document.querySelectorAll ('.' + cls)]: the positions of the elements
    that carry the class, in document order. *)
Definition querySelectorAll (cls : string) (doc : list Element) : list nat :=
  filter (λ i, has_class cls doc i) (seq 0 (length doc)).

Definition loadTracks (p : state) : state :=
  let trackItems := querySelectorAll "track-item" (document p) in
  set_tracks
    (omap (λ item, (λ e, mkTrack (dataset_src e) (dataset_title e) item)
                     <$> (document p !! item)) trackItems) p.

Definition removeActive (e : Element) : Element :=
  if JS.classList_contains "track-item" (classList e)
  then set_classList (JS.classList_remove "active" (classList e)) e
  else e.

Definition addActive (e : Element) : Element :=
  set_classList (JS.classList_add "active" (classList e)) e.

(** The page after the two class-list updates of [loadTrack], where [n]
    is the element of the track being loaded. *)
Definition marked (n : nat) (doc : list Element) : list Element :=
  alter addActive n (removeActive <$> doc).

Definition loadTrack (index : JS.number) (p : state) : state :=
  match index with
  | JS.Int i =>
      if (0 <=? i) && (i <? trackCount p) then
        match tracks p !! Z.to_nat i with
        | Some track =>
            let p := set_currentTrackIndex i p in
            let p := set_audio_src (src track) p in
            let p := set_trackTitle (title track) p in
            let p := set_document (removeActive <$> document p) p in
            let p := set_document (alter addActive (element track) (document p)) p in
            let p := set_progressBar_value (JS.toString 0) p in
            let p := set_progressFill_width "0%" p in
            let p := set_progressFill_classList
                       (JS.classList_remove "playing" (progressFill_classList p)) p in
            let p := set_progressContainer_classList
                       (JS.classList_remove "loading" (progressContainer_classList p)) p in
            set_currentTimeSpan "0:00" p
        | None => p
        end
      else p
  | JS.NaN => p
  end.

(** [Math.floor (Math.random () * n)], where [r] is the number
    [Math.random ()] returns, a double in [[0, 1)], and the product is
    rounded as the multiplication of doubles rounds it. *)
Definition randomIndex (r : Q) (n : Z) : Z :=
  Qfloor (JS.round64 (r * inject_Z n)).

Definition playNext (r : Q) (p : state) : state :=
  let nextIndex :=
    if isShuffled p then JS.Int (randomIndex r (trackCount p))
    else JS.rem (currentTrackIndex p + 1) (trackCount p) in
  let p := loadTrack nextIndex p in
  if isPlaying p then audio_play p else p.

Definition playPrevious (p : state) : state :=
  let prevIndex :=
    if currentTrackIndex p =? 0 then trackCount p - 1
    else currentTrackIndex p - 1 in
  let p := loadTrack (JS.Int prevIndex) p in
  if isPlaying p then audio_play p else p.

(** [formatTime]; [seconds] is a media time: [audio.currentTime], or
    [audio.duration], which is [Infinity] for a stream without end. *)
Definition formatTime (seconds : JS.double) : string :=
  let mins := JS.Math_floor (JS.divide seconds 60) in
  let secs := JS.Math_floor (JS.remainder seconds 60) in
  JS.floored_toString mins +:+ ":" +:+ JS.padStart 2 "0" (JS.floored_toString secs).

(** A number below 100 written with two digits. *)
Definition digit (d : Z) : Ascii.ascii :=
  Ascii.ascii_of_nat (48 + Z.to_nat d).

Definition two_digits (n : Z) : string :=
  String (digit (n `div` 10)) (String (digit (n `mod` 10)) EmptyString).

(** The time format in the words of the specification, for an exact
    number of seconds: the whole minutes as a plain numeral, a colon, and
    the whole seconds left over, below a minute, as two digits. *)
Definition formatTime_spec (seconds : Q) : string :=
  let minutes := Qfloor (seconds / 60) in
  let left := Qfloor (seconds - 60 * inject_Z minutes) in
  JS.toString minutes +:+ ":" +:+ two_digits left.

(** [togglePlayPause] up to the request to play, and the two callbacks of
    the promise [audio.play ()] returns.  The icon written into the button
    is not mirrored. *)
Definition togglePlayPause (p : state) : state :=
  if isPlaying p then
    let p := audio_pause p in
    let p := set_isPlaying false p in
    let p := set_progressFill_classList
               (JS.classList_remove "playing" (progressFill_classList p)) p in
    set_progressContainer_classList
      (JS.classList_remove "loading" (progressContainer_classList p)) p
  else
    let p := set_progressContainer_classList
               (JS.classList_add "loading" (progressContainer_classList p)) p in
    audio_play p.

Definition playResolved (p : state) : state :=
  let p := set_isPlaying true p in
  let p := set_progressFill_classList
             (JS.classList_add "playing" (progressFill_classList p)) p in
  set_progressContainer_classList
    (JS.classList_remove "loading" (progressContainer_classList p)) p.

Definition playRejected (p : state) : state :=
  set_progressContainer_classList
    (JS.classList_remove "loading" (progressContainer_classList p)) p.

(** The two toggles also restyle their buttons, which no field mirrors. *)
Definition toggleShuffle (p : state) : state :=
  set_isShuffled (negb (isShuffled p)) p.

Definition toggleRepeat (p : state) : state :=
  set_isRepeating (negb (isRepeating p)) p.

(** [handleTrackEnd]; rewinding [audio.currentTime] touches the media
    element only. *)
Definition handleTrackEnd (r : Q) (p : state) : state :=
  if isRepeating p then audio_play p else playNext r p.

(** The click listener of the track list: [trackIndex] is what [indexOf]
    found for the clicked item among the children of the list, or -1. *)
Definition trackListClick (trackIndex : Z) (p : state) : state :=
  loadTrack (JS.Int trackIndex) p.

(** What can happen to the player: a click on a control or on a track,
    the media element reporting the end of the track or the outcome of a
    request to play, and a direct call of [loadTrack].  Where the handler
    may draw a random number, [r] is what [Math.random ()] returns, a
    double in [[0, 1)] (see [draw_ok] below). *)
Inductive event :=
| ClickPlayPause
| PlayResolved
| PlayRejected
| ClickNext (r : Q)
| ClickPrevious
| ClickTrack (trackIndex : Z)
| ClickShuffle
| ClickRepeat
| Ended (r : Q)
| LoadTrack (index : JS.number).

Definition handle (e : event) (p : state) : state :=
  match e with
  | ClickPlayPause => togglePlayPause p
  | PlayResolved => playResolved p
  | PlayRejected => playRejected p
  | ClickNext r => playNext r p
  | ClickPrevious => playPrevious p
  | ClickTrack i => trackListClick i p
  | ClickShuffle => toggleShuffle p
  | ClickRepeat => toggleRepeat p
  | Ended r => handleTrackEnd r p
  | LoadTrack index => loadTrack index p
  end.

Definition run (es : list event) (p : state) : state :=
  foldl (λ p e, handle e p) p es.

(** The indices [playNext] makes current, call after call. *)
Fixpoint playNext_trace (rs : list Q) (p : state) : list Z :=
  match rs with
  | [] => []
  | r :: rs =>
      let p := playNext r p in
      currentTrackIndex p :: playNext_trace rs p
  end.

(** [Math.random ()] returns a double in [[0, 1)]. *)
Definition draw_ok (r : Q) : Prop :=
  JS.is_double r = true ∧ (0 <= r)%Q ∧ (r < 1)%Q.

(** The player as the constructor leaves it on a page with the elements
    [doc]; the remaining arguments are what the markup gives the nodes the
    constructor does not write. *)
Definition constructed (doc : list Element) (titleText barValue fillWidth : string)
    (fillClasses containerClasses : list string) (timeText : string) : state :=
  loadTrack (JS.Int 0)
    (loadTracks
       (mkState doc [] 0 false false false "" [] titleText barValue fillWidth
          fillClasses containerClasses timeText)).

(** A page with three track items A, B and C, a link between them, and
    the player the constructor builds on it. *)
Definition page_ABC : list Element :=
  [ mkElement ["track-item"; "active"] "a.mp3" "A";
    mkElement ["track-item"] "b.mp3" "B";
    mkElement ["nav-link"] "" "";
    mkElement ["track-item"] "c.mp3" "C" ].

Definition player_ABC : state :=
  constructed page_ABC "" "0" "0%" [] [] "0:00".

(** The current index is a position of the playlist. *)
Definition index_ok (p : state) : Prop :=
  0 ≤ currentTrackIndex p < trackCount p.

(** The playlist is the list of the page's track items, as [loadTracks]
    reads it. *)
Definition tracks_ok (p : state) : Prop :=
  element <$> tracks p = querySelectorAll "track-item" (document p).

(** Whether the track's item carries the active marker. *)
Definition is_active (p : state) (t : Track) : bool :=
  has_class "active" (document p) (element t).

(** The progress indicators at zero: bar, fill, elapsed time, and neither
    animation class set. *)
Definition progress_reset (p : state) : Prop :=
  progressBar_value p = "0"%string
  ∧ progressFill_width p = "0%"%string
  ∧ currentTimeSpan p = "0:00"%string
  ∧ ¬ ("playing" : string) ∈ progressFill_classList p
  ∧ ¬ ("loading" : string) ∈ progressContainer_classList p.

End Player.

(** ** The todo list *)

Module Todo.

(** An entry of [this.todos]; [timestamp] is the time [new Date ()] read,
    in milliseconds. *)
Record Todo := mkTodo {
  id : Z;
  text : JS.str;
  completed : bool;
  timestamp : Z
}.

Record state := mkState {
  todos : list Todo;
  todoIdCounter : Z;
  (** [todoInput.value] *)
  todoInput : JS.str;
  (** the [innerHTML] assigned to each list item appended to [todoList],
      in order *)
  todoList : list JS.str;
  (** [todoCount.textContent] *)
  todoCount : string
}.

Definition set_todos (l : list Todo) (s : state) : state :=
  mkState l (todoIdCounter s) (todoInput s) (todoList s) (todoCount s).

Definition set_todoIdCounter (n : Z) (s : state) : state :=
  mkState (todos s) n (todoInput s) (todoList s) (todoCount s).

Definition set_todoInput (v : JS.str) (s : state) : state :=
  mkState (todos s) (todoIdCounter s) v (todoList s) (todoCount s).

Definition set_todoList (l : list JS.str) (s : state) : state :=
  mkState (todos s) (todoIdCounter s) (todoInput s) l (todoCount s).

Definition set_todoCount (c : string) (s : state) : state :=
  mkState (todos s) (todoIdCounter s) (todoInput s) (todoList s) c.

(** The pieces of the template literal of [renderTodos]: a line break
    followed by the indentation of the next line, and the double quote. *)
Definition line (indent : nat) : JS.str := 10%N :: replicate indent 32%N.

Definition quote : JS.str := [34%N].

(** The template literal assigned to [li.innerHTML] for an entry.  The
    id is interpolated as a decimal numeral and the text as it stands:
    nothing in it is escaped, so the elements the browser makes of the
    markup depend on the text. *)
Definition renderItem (todo : Todo) : JS.str :=
  line 16 ++ JS.units "<input type=" ++ quote ++ JS.units "checkbox" ++ quote
    ++ JS.units " class=" ++ quote ++ JS.units "todo-checkbox" ++ quote
    ++ JS.units " "
  ++ line 23 ++ (if completed todo then JS.units "checked" else [])
    ++ JS.units " "
  ++ line 23 ++ JS.units "data-id=" ++ quote
    ++ JS.units (JS.toString (id todo)) ++ quote ++ JS.units ">"
  ++ line 16 ++ JS.units "<span class=" ++ quote ++ JS.units "todo-text "
    ++ (if completed todo then JS.units "completed" else []) ++ quote
    ++ JS.units ">" ++ text todo ++ JS.units "</span>"
  ++ line 16 ++ JS.units "<button class=" ++ quote ++ JS.units "todo-delete"
    ++ quote ++ JS.units " data-id=" ++ quote
    ++ JS.units (JS.toString (id todo)) ++ quote ++ JS.units ">"
    ++ [215%N] ++ JS.units "</button>"
  ++ line 12.

Definition renderTodos (s : state) : state :=
  let s := set_todoList [] s in
  foldl (λ s todo, set_todoList (todoList s ++ [renderItem todo]) s) s (todos s).

(** The entries that are not completed. *)
Definition remainingCount (s : state) : nat :=
  length (filter (λ t, negb (completed t)) (todos s)).

Definition updateTodoCount (s : state) : state :=
  set_todoCount (JS.toString (Z.of_nat (remainingCount s))) s.

(** [addTodo]; [now] is the time [new Date ()] reads. *)
Definition addTodo (now : Z) (s : state) : state :=
  let text := JS.trim (todoInput s) in
  if decide (text = []) then s
  else
    let todo := mkTodo (todoIdCounter s) text false now in
    let s := set_todoIdCounter (todoIdCounter s + 1) s in
    let s := set_todos (todos s ++ [todo]) s in
    let s := set_todoInput [] s in
    let s := renderTodos s in
    updateTodoCount s.

Definition toggleCompleted (todo : Todo) : Todo :=
  mkTodo (id todo) (text todo) (negb (completed todo)) (timestamp todo).

(** [toggleTodo]: [find] gives the first entry with the id, and the
    assignment changes that entry where it stands in the array. *)
Definition toggleTodo (id' : JS.number) (s : state) : state :=
  match list_find (λ t, JS.strict_eq id' (id t)) (todos s) with
  | Some (k, todo) =>
      let s := set_todos (<[k := toggleCompleted todo]> (todos s)) s in
      let s := renderTodos s in
      updateTodoCount s
  | None => s
  end.

Definition deleteTodo (id' : JS.number) (s : state) : state :=
  let s := set_todos (filter (λ t, negb (JS.strict_eq id' (id t))) (todos s)) s in
  let s := renderTodos s in
  updateTodoCount s.

(** Where a click on the list can land: on an element of class
    [todo-checkbox], on one of class [todo-delete], or elsewhere.
    [todoId] is what [parseInt] makes of the target's [data-id]. *)
Inductive target :=
| Checkbox (todoId : JS.number)
| DeleteButton (todoId : JS.number)
| Elsewhere.

Definition handleTodoClick (e : target) (s : state) : state :=
  match e with
  | Checkbox todoId => toggleTodo todoId s
  | DeleteButton todoId => deleteTodo todoId s
  | Elsewhere => s
  end.

(** What can happen to the list: text typed into the input, a click on
    the add button or the Enter key at time [now], a click on the list. *)
Inductive event :=
| Type_ (value : JS.str)
| Add (now : Z)
| Click (e : target).

Definition handle (e : event) (s : state) : state :=
  match e with
  | Type_ value => set_todoInput value s
  | Add now => addTodo now s
  | Click e => handleTodoClick e s
  end.

Definition run (es : list event) (s : state) : state :=
  foldl (λ s e, handle e s) s es.

(** The list as the constructor leaves it; the input, the list items and
    the count are what the markup has. *)
Definition initial (inputValue : JS.str) (items : list JS.str)
    (countText : string) : state :=
  mkState [] 0 inputValue items countText.

(** The list after "Study" (typed with blanks around it) and "Read" have
    been added on an empty page. *)
Definition list_Study_Read : state :=
  run [Type_ (JS.units "  Study "); Add 1000; Type_ (JS.units "Read"); Add 2000]
    (initial [] [] "0").

(** Ids grow along the list, and every id in use is below the counter. *)
Definition ids_ok (s : state) : Prop :=
  StronglySorted Z.lt (id <$> todos s)
  ∧ Forall (λ t, id t < todoIdCounter s) (todos s).

(** The page shows the list: the markup of the items and the count are
    those of [todos]. *)
Definition rendered (s : state) : Prop :=
  todoList s = renderItem <$> todos s
  ∧ todoCount s = JS.toString (Z.of_nat (remainingCount s)).

End Todo.

(** ** Measures used to state how the parts behave over time *)

Module TimerView.

(** The remaining time in seconds. *)
Definition totalSeconds (s : Timer.state) : Z :=
  60 * Timer.timerMinutes s + Timer.timerSeconds s.

(** A clock reading: two digits, a colon, two digits. *)
Definition clock (minutes seconds : Z) : string :=
  Player.two_digits minutes +:+ ":" +:+ Player.two_digits seconds.

(** What the display can read: the remaining time, or the completion
    message once the time is up. *)
Definition display_ok (s : Timer.state) : Prop :=
  Timer.timerDisplay s = clock (Timer.timerMinutes s) (Timer.timerSeconds s)
  ∨ (Timer.timerDisplay s = "Session Complete!"%string
     ∧ Timer.remaining s = (0, 0)).

(** At most an hour is left, in whole minutes and seconds below a minute. *)
Definition within_hour (s : Timer.state) : Prop :=
  0 ≤ Timer.timerMinutes s ∧ 0 ≤ Timer.timerSeconds s ≤ 59
  ∧ totalSeconds s ≤ 3600.

End TimerView.

Module PlayerView.


(** The playing marker is on the progress fill only while the player says
    it is playing. *)
Definition marker_ok (p : Player.state) : Prop :=
  ("playing" : string) ∈ Player.progressFill_classList p →
  Player.isPlaying p = true.



End PlayerView.

Module TodoView.

(** A string that neither starts nor ends with white space. *)
Definition trimmed (s : JS.str) : Prop :=
  (∀ c, head s = Some c → JS.isWhiteSpace c = false)
  ∧ (∀ c, last s = Some c → JS.isWhiteSpace c = false).

(** Every entry has a text that is not empty and has no white space at
    its ends. *)
Definition texts_ok (s : Todo.state) : Prop :=
  Forall (λ t, Todo.text t ≠ [] ∧ trimmed (Todo.text t)
               ∧ JS.trim (Todo.text t) = Todo.text t)
    (Todo.todos s).

End TodoView.

(** ** Clicks on the items [renderTodos] writes *)

Module TodoDom.

(** The value of a code unit as a digit of the radix, if it is one. *)
Definition digitValue (radix : Z) (c : N) : option Z :=
  let n := Z.of_N c in
  let v :=
    if (48 <=? n) && (n <=? 57) then Some (n - 48)
    else if (97 <=? n) && (n <=? 122) then Some (n - 87)
    else if (65 <=? n) && (n <=? 90) then Some (n - 55)
    else None in
  match v with
  | Some d => if d <? radix then Some d else None
  | None => None
  end.

(** The number the longest prefix of digits denotes; [acc] is [None]
    until a digit has been read. *)
Fixpoint parseDigits (radix : Z) (acc : option Z) (s : JS.str) : option Z :=
  match s with
  | c :: rest =>
      match digitValue radix c with
      | Some d => parseDigits radix (Some (radix * default 0 acc + d)) rest
      | None => acc
      end
  | [] => acc
  end.

(** A leading minus (45) or plus (43). *)
Definition stripSign (s : JS.str) : Z * JS.str :=
  match s with
  | 45%N :: rest => (-1, rest)
  | 43%N :: rest => (1, rest)
  | _ => (1, s)
  end.

(** A leading [0x] or [0X] (48, then 120 or 88). *)
Definition stripPrefix (s : JS.str) : Z * JS.str :=
  match s with
  | 48%N :: 120%N :: rest => (16, rest)
  | 48%N :: 88%N :: rest => (16, rest)
  | _ => (10, s)
  end.

(** [parseInt (s)] without a radix: leading white space is skipped, then
    a sign, then [0x] selects base 16; the digits that follow give the
    number, and there being none gives [NaN]. *)
Definition parseInt (s : JS.str) : JS.number :=
  let (sign, s) := stripSign (JS.trimStart s) in
  let (radix, s) := stripPrefix s in
  match parseDigits radix None s with
  | Some n => JS.Int (sign * n)
  | None => JS.NaN
  end.

(** A click on an element of class [todo-checkbox], or of class
    [todo-delete], whose [data-id] attribute has the value [dataId]:
    [handleTodoClick] reads the id from the attribute with [parseInt]. *)
Definition clickCheckbox (dataId : JS.str) (s : Todo.state) : Todo.state :=
  Todo.handleTodoClick (Todo.Checkbox (parseInt dataId)) s.

Definition clickDelete (dataId : JS.str) (s : Todo.state) : Todo.state :=
  Todo.handleTodoClick (Todo.DeleteButton (parseInt dataId)) s.

End TodoDom.

(** ** Properties of rounding to a double *)

Module DoubleFacts.
Import JS.
Local Open Scope Q_scope.

(** *** Powers of two *)

Lemma two_neq_0 : ¬ 2 == 0.
Proof. intros H. vm_compute in H. discriminate. Qed.

Lemma pow2_pos e : 0 < pow2 e.
Proof. apply Qpower_0_lt. reflexivity. Qed.

Lemma pow2_add a b : pow2 (a + b) == pow2 a * pow2 b.
Proof. apply Qpower_plus, two_neq_0. Qed.

Lemma pow2_le a b : (a ≤ b)%Z → pow2 a <= pow2 b.
Proof. intros H. apply Qpower_le_compat_l; [done|]. intros E. discriminate. Qed.

Lemma pow2_lt a b : (a < b)%Z → pow2 a < pow2 b.
Proof. intros H. apply Qpower_lt_compat_l; [done|reflexivity]. Qed.

Lemma pow2_lt_inv a b : pow2 a < pow2 b → (a < b)%Z.
Proof. intros H. apply (Qpower_lt_compat_l_inv 2); [done|reflexivity]. Qed.

Lemma pow2_Z e : (0 ≤ e)%Z → pow2 e == inject_Z (2 ^ e).
Proof. intros H. symmetry. apply (Zpower_Qpower 2 e H). Qed.

Lemma pow2_half e : pow2 (e - 1) == pow2 e * (1 # 2).
Proof.
  replace (e - 1)%Z with (e + -1)%Z by lia. rewrite pow2_add.
  change (pow2 (-1)) with (/ 2). reflexivity.
Qed.

(** *** The exponent of a positive number *)

Lemma Z_log2_pow2 n :
  (0 < n)%Z →
  pow2 (Z.log2 n) <= inject_Z n ∧ inject_Z n < pow2 (Z.log2 n + 1).
Proof.
  intros Hn. destruct (Z.log2_spec n Hn) as [Hlo Hhi].
  pose proof (Z.log2_nonneg n) as H0.
  rewrite !pow2_Z by lia. rewrite <- Zle_Qle, <- Zlt_Qlt.
  split; [done|]. by rewrite <- Z.add_1_r in Hhi.
Qed.

Lemma Qlog2_spec x :
  0 < x → pow2 (Qlog2 x) <= x ∧ x < pow2 (Qlog2 x + 1).
Proof.
  intros Hx. destruct x as [n d].
  assert (0 < n)%Z as Hn.
  { unfold Qlt in Hx. cbn in Hx. lia. }
  destruct (Z_log2_pow2 n Hn) as [Hn1 Hn2].
  destruct (Z_log2_pow2 (Z.pos d) eq_refl) as [Hd1 Hd2].
  set (a := Z.log2 n) in *. set (b := Z.log2 (Z.pos d)) in *.
  assert ((n # d) * inject_Z (Z.pos d) == inject_Z n) as Hx'.
  { rewrite (Qmake_Qdiv n d). field. intros H. discriminate. }
  assert (0 < inject_Z (Z.pos d)) as Hd0 by reflexivity.
  assert (pow2 (a - b - 1) <= n # d ∧ n # d < pow2 (a - b + 1)) as [Hlo Hhi].
  { pose proof (pow2_add (a - b + 1) b) as E1.
    replace (a - b + 1 + b)%Z with (a + 1)%Z in E1 by lia.
    pose proof (pow2_add (a - b - 1) (b + 1)) as E2.
    replace (a - b - 1 + (b + 1))%Z with a in E2 by lia.
    pose proof (pow2_pos (a - b + 1)). pose proof (pow2_pos (a - b - 1)).
    pose proof (pow2_pos b). pose proof (pow2_pos (b + 1)).
    split; nra. }
  unfold Qlog2. cbn [Qnum Qden]. fold a b.
  destruct (Qle_bool (pow2 (a - b)) (n # d)) eqn:E.
  - apply Qle_bool_iff in E. by split.
  - split; [done|]. replace (a - b - 1 + 1)%Z with (a - b)%Z by lia.
    apply Qnot_le_lt. intros H%Qle_bool_iff. congruence.
Qed.

Lemma Qlog2_unique x k :
  pow2 k <= x → x < pow2 (k + 1) → Qlog2 x = k.
Proof.
  intros Hlo Hhi.
  assert (0 < x) as Hx by (eapply Qlt_le_trans; [apply pow2_pos|exact Hlo]).
  destruct (Qlog2_spec x Hx) as [H1 H2].
  assert (Qlog2 x < k + 1)%Z.
  { apply pow2_lt_inv. eapply Qle_lt_trans; [exact H1|exact Hhi]. }
  assert (k < Qlog2 x + 1)%Z.
  { apply pow2_lt_inv. eapply Qle_lt_trans; [exact Hlo|exact H2]. }
  lia.
Qed.

(** *** Rounding to an integer *)

Lemma roundHalfEven_cases m :
  roundHalfEven m = Qfloor m ∧ m - inject_Z (Qfloor m) <= 1 # 2
  ∨ roundHalfEven m = (Qfloor m + 1)%Z ∧ 1 # 2 <= m - inject_Z (Qfloor m).
Proof.
  unfold roundHalfEven.
  destruct (Qcompare_spec (m - inject_Z (Qfloor m)) (1 # 2)) as [E|E|E].
  - destruct (Z.even (Qfloor m)); [left|right]; (split; [done|]); rewrite E;
      apply Qle_refl.
  - left. split; [done|]. by apply Qlt_le_weak.
  - right. split; [done|]. by apply Qlt_le_weak.
Qed.

Lemma roundHalfEven_upper m : inject_Z (roundHalfEven m) <= m + (1 # 2).
Proof.
  pose proof (Qfloor_le m).
  destruct (roundHalfEven_cases m) as [[-> H1]|[-> H1]].
  - lra.
  - rewrite inject_Z_plus. change (inject_Z 1) with 1. lra.
Qed.

Lemma roundHalfEven_ge m k : inject_Z k <= m → (k ≤ roundHalfEven m)%Z.
Proof.
  intros H. apply Qfloor_resp_le in H. rewrite Qfloor_Z in H.
  destruct (roundHalfEven_cases m) as [[-> _]|[-> _]]; lia.
Qed.

Lemma roundHalfEven_Z m k : m == inject_Z k → roundHalfEven m = k.
Proof.
  intros E. assert (Qfloor m = k) as Hf by (by rewrite E, Qfloor_Z).
  unfold roundHalfEven. rewrite Hf.
  destruct (Qcompare_spec (m - inject_Z k) (1 # 2)) as [H|H|H]; [|done|];
    rewrite E in H; exfalso; lra.
Qed.

(** *** Rounding to a double *)

Lemma ulp_pos x : 0 < ulp x.
Proof. apply pow2_pos. Qed.

Lemma round64_0 x : x == 0 → round64 x = 0.
Proof. intros E%Qeq_bool_iff. unfold round64. by rewrite E. Qed.

Lemma round64_eq x :
  ¬ x == 0 → round64 x = inject_Z (roundHalfEven (x / ulp x)) * ulp x.
Proof.
  intros E. unfold round64. destruct (Qeq_bool x 0) eqn:E'; [|done].
  by apply Qeq_bool_iff in E'.
Qed.

Lemma round64_upper x : round64 x <= x + ulp x * (1 # 2).
Proof.
  pose proof (ulp_pos x) as Hu.
  destruct (Qeq_dec x 0) as [E|E].
  - rewrite (round64_0 x E). lra.
  - rewrite (round64_eq x E).
    pose proof (roundHalfEven_upper (x / ulp x)) as H.
    assert (x / ulp x * ulp x == x) as Hx by (field; lra).
    apply (Qmult_le_compat_r _ _ (ulp x)) in H; [|lra]. lra.
Qed.

Lemma round64_grid x k :
  inject_Z k * ulp x <= x → inject_Z k * ulp x <= round64 x.
Proof.
  intros H. pose proof (ulp_pos x) as Hu.
  destruct (Qeq_dec x 0) as [E|E].
  - rewrite (round64_0 x E). lra.
  - rewrite (round64_eq x E). apply Qmult_le_compat_r; [|lra].
    rewrite <- Zle_Qle. apply roundHalfEven_ge.
    apply Qle_shift_div_l; done.
Qed.

Lemma round64_nonneg x : 0 <= x → 0 <= round64 x.
Proof.
  intros H. pose proof (round64_grid x 0) as H0.
  change (inject_Z 0) with 0 in H0. lra.
Qed.

Lemma ulp_of x e :
  pow2 e <= x → x < pow2 (e + 1) → ulp x = pow2 (Z.max (e - 52) (-1074)).
Proof.
  intros Hlo Hhi. unfold ulp.
  assert (0 < x) as Hx by (eapply Qlt_le_trans; [apply pow2_pos|exact Hlo]).
  rewrite (Qlog2_unique (Qabs x) e); [done|..]; rewrite Qabs_pos; lra.
Qed.

Lemma Qlog2_abs x :
  0 < x → pow2 (Qlog2 (Qabs x)) <= x ∧ x < pow2 (Qlog2 (Qabs x) + 1).
Proof.
  intros Hx. assert (Qabs x == x) as E by (apply Qabs_pos; lra).
  destruct (Qlog2_spec (Qabs x)) as [H1 H2]; [lra|]. lra.
Qed.

(** A double is a whole number of units in the last place. *)
Lemma is_double_grid x :
  is_double x = true → ∃ M, x == inject_Z M * ulp x.
Proof.
  intros [E _]%andb_prop. apply Qeq_bool_iff in E.
  destruct (Qeq_dec x 0) as [E0|E0].
  - exists 0%Z. change (inject_Z 0) with 0. lra.
  - rewrite (round64_eq x E0) in E. eexists. symmetry. exact E.
Qed.

(** Below 1 the doubles end at [1 - 2^-53]. *)
Lemma double_below_one r :
  is_double r = true → 0 <= r → r < 1 → r <= 1 - pow2 (-53).
Proof.
  intros Hd H0 H1.
  assert (pow2 (-53) <= 1 # 2) as Hsmall.
  { change (1 # 2) with (pow2 (-1)). by apply pow2_le. }
  destruct (Qlt_le_dec r (1 # 2)) as [Hr|Hr]; [lra|].
  destruct (is_double_grid r Hd) as [M HM].
  rewrite (ulp_of r (-1)) in HM;
    [|change (pow2 (-1)) with (1 # 2); lra|change (pow2 (-1 + 1)) with 1; lra].
  change (Z.max (-1 - 52) (-1074)) with (-53)%Z in HM.
  pose proof (pow2_pos (-53)) as Hu.
  assert (inject_Z (2 ^ 53) * pow2 (-53) == 1) as Hone by reflexivity.
  assert (M < 2 ^ 53)%Z as HMlt.
  { rewrite Zlt_Qlt. apply (Qmult_lt_r _ _ (pow2 (-53))); [done|]. lra. }
  assert (inject_Z M <= inject_Z (2 ^ 53 - 1)) as HMle
      by (rewrite <- Zle_Qle; lia).
  unfold Z.sub in HMle. rewrite inject_Z_plus in HMle.
  change (inject_Z (- (1))) with (- (1)) in HMle.
  apply (Qmult_le_compat_r _ _ (pow2 (-53))) in HMle; [|lra]. lra.
Qed.

(** The product of a double below 1 and a positive integer rounds to
    less than the integer. *)
Lemma round64_fraction r n :
  is_double r = true → 0 <= r → r < 1 → (0 < n)%Z →
  0 <= round64 (r * inject_Z n) ∧ round64 (r * inject_Z n) < inject_Z n.
Proof.
  intros Hd H0 H1 Hn.
  assert (1 <= inject_Z n) as Hn1.
  { change 1 with (inject_Z 1). rewrite <- Zle_Qle. lia. }
  pose proof (double_below_one r Hd H0 H1) as Hr.
  pose proof (pow2_pos (-53)) as Hu.
  set (x := r * inject_Z n).
  assert (0 <= x) as Hx0 by (unfold x; nra).
  assert (x <= inject_Z n - inject_Z n * pow2 (-53)) as Hx1 by (unfold x; nra).
  split; [by apply round64_nonneg|].
  destruct (Qeq_dec x 0) as [E|E].
  { rewrite (round64_0 x E). lra. }
  eapply Qle_lt_trans; [apply round64_upper|].
  assert (0 < x) as Hx by (destruct (Qlt_le_dec 0 x); [done|exfalso; apply E; lra]).
  destruct (Qlog2_abs x Hx) as [He1 He2]. unfold ulp.
  set (e := Qlog2 (Qabs x)) in *.
  assert (pow2 (Z.max (e - 52) (-1074)) * (1 # 2) < inject_Z n * pow2 (-53));
    [|lra].
  rewrite <- pow2_half.
  destruct (Z.max_spec (e - 52) (-1074)) as [[_ ->]|[_ ->]].
  - assert (pow2 (-1074 - 1) < pow2 (-53)) by (by apply pow2_lt). nra.
  - replace (e - 52 - 1)%Z with (e + -53)%Z by lia. rewrite pow2_add.
    apply Qmult_lt_compat_r; [done|].
  assert (0 < inject_Z n * pow2 (-53)) by (apply Qmult_lt_0_compat; lra).
  clearbody x. lra.
Qed.

Lemma Qfloor_unique y m :
  inject_Z m <= y → y < inject_Z (m + 1) → Qfloor y = m.
Proof.
  intros Hlo Hhi. apply Qfloor_resp_le in Hlo. rewrite Qfloor_Z in Hlo.
  pose proof (Qfloor_le y) as Hy.
  assert (Qfloor y < m + 1)%Z; [|lia].
  rewrite Zlt_Qlt. lra.
Qed.

(** An integer is a whole number of units in the last place of any
    number below 2^53. *)
Lemma Z_on_grid x k :
  0 < x → x < pow2 53 → ∃ k', inject_Z k == inject_Z k' * ulp x.
Proof.
  intros Hx H53. destruct (Qlog2_abs x Hx) as [He1 He2]. unfold ulp.
  set (e := Qlog2 (Qabs x)) in *.
  assert (e < 53)%Z as He by (apply pow2_lt_inv; lra).
  set (t := Z.max (e - 52) (-1074)).
  assert (t ≤ 0)%Z as Ht by lia.
  exists (k * 2 ^ (- t))%Z. rewrite inject_Z_mult, <- pow2_Z by lia.
  pose proof (pow2_add (- t) t) as E. replace (- t + t)%Z with 0%Z in E by lia.
  change (pow2 0) with 1 in E. rewrite <- Qmult_assoc, <- E. ring.
Qed.

Lemma round64_ge_Z x k :
  0 < x → x < pow2 53 → inject_Z k <= x → inject_Z k <= round64 x.
Proof.
  intros Hx H53 Hk. destruct (Z_on_grid x k Hx H53) as [k' E].
  rewrite E. apply round64_grid. by rewrite <- E.
Qed.

(** Dividing a double below 2^53 by 60 and rounding the quotient does
    not reach the next integer: the whole minutes are exact. *)
Lemma divide_60_floor s :
  is_double s = true → 0 <= s → s < pow2 53 →
  Qfloor (round64 (s / 60)) = Qfloor (s / 60).
Proof.
  intros Hd H0 H53. set (x := s / 60).
  assert (x * 60 == s) as Hxs by (unfold x; field).
  clearbody x.
  destruct (Qeq_dec x 0) as [E|E].
  { rewrite (round64_0 x E). by rewrite E. }
  assert (0 < x) as Hx by (destruct (Qlt_le_dec 0 x); [done|exfalso; apply E; lra]).
  pose proof (Qfloor_le x) as Hfl. pose proof (Qlt_floor x) as Hfu.
  assert (0 ≤ Qfloor x)%Z as Hm.
  { change 0%Z with (Qfloor 0). apply Qfloor_resp_le. lra. }
  set (m := Qfloor x) in *.
  assert (1 <= inject_Z (m + 1)) as Hm1.
  { change 1 with (inject_Z 1). rewrite <- Zle_Qle. lia. }
  apply Qfloor_unique.
  { apply round64_ge_Z; [done|lra|done]. }
  eapply Qle_lt_trans; [apply round64_upper|].
  destruct (Qlog2_abs x Hx) as [He1 He2]. unfold ulp.
  set (e := Qlog2 (Qabs x)) in *. rewrite <- pow2_half.
  destruct (Z_lt_le_dec e (-1)) as [He|He].
  - assert (pow2 (e + 1) <= pow2 (-1)) as Hx2 by (apply pow2_le; lia).
    assert (pow2 (Z.max (e - 52) (-1074) - 1) <= pow2 (-1)) as Hu2
        by (apply pow2_le; lia).
    change (pow2 (-1)) with (1 # 2) in Hx2, Hu2. lra.
  - rewrite Z.max_l by lia.
    assert (0 < s) as Hs by lra.
    destruct (Qlog2_abs s Hs) as [Hs1 Hs2]. unfold ulp.
    destruct (is_double_grid s Hd) as [M HM]. unfold ulp in HM.
    set (es := Qlog2 (Qabs s)) in *.
    assert (es < 53)%Z as Hes by (apply pow2_lt_inv; lra).
    assert (e + 5 ≤ es)%Z as Hes5.
    { assert (e + 5 < es + 1)%Z; [|lia]. apply pow2_lt_inv.
      pose proof (pow2_add e 5) as E5. change (pow2 5) with 32 in E5.
      pose proof (pow2_pos e). lra. }
    rewrite Z.max_l in HM by lia.
    set (u := (es - 52)%Z) in *.
    pose proof (pow2_pos u) as Hu.
    pose proof (pow2_add (- u) u) as Eu. replace (- u + u)%Z with 0%Z in Eu by lia.
    change (pow2 0) with 1 in Eu. rewrite pow2_Z in Eu by lia.
    assert (inject_Z 60 * inject_Z (m + 1) - s
            == inject_Z (60 * (m + 1) * 2 ^ (- u) - M) * pow2 u) as HG.
    { assert (inject_Z (60 * (m + 1) * 2 ^ (- u) - M)
              == inject_Z 60 * inject_Z (m + 1) * inject_Z (2 ^ (- u)) - inject_Z M)
        as -> by (unfold Z.sub; rewrite inject_Z_plus, inject_Z_opp, !inject_Z_mult; ring).
      rewrite HM.
      transitivity (inject_Z 60 * inject_Z (m + 1) * 1 - inject_Z M * pow2 u);
        [ring|rewrite Eu; ring]. }
    assert (0 < inject_Z 60 * inject_Z (m + 1) - s) as HGpos.
    { change (inject_Z 60) with 60. lra. }
    assert (1 ≤ 60 * (m + 1) * 2 ^ (- u) - M)%Z as HJ.
    { assert (0 < 60 * (m + 1) * 2 ^ (- u) - M)%Z; [|lia].
      rewrite Zlt_Qlt. change (inject_Z 0) with 0.
      rewrite HG in HGpos.
      destruct (Qlt_le_dec 0 (inject_Z (60 * (m + 1) * 2 ^ (- u) - M)))
        as [Hp|Hn]; [done|]. exfalso.
      assert (inject_Z (60 * (m + 1) * 2 ^ (- u) - M) * pow2 u <= 0 * pow2 u)
        by (apply Qmult_le_compat_r; lra). lra. }
    assert (pow2 u <= inject_Z 60 * inject_Z (m + 1) - s) as HGu.
    { rewrite HG. rewrite Zle_Qle in HJ.
      apply (Qmult_le_compat_r _ _ (pow2 u)) in HJ; [|lra].
      change (inject_Z 1) with 1 in HJ. lra. }
    assert (pow2 (e - 52 - 1) <= pow2 (u + -6)) as Hhalf
        by (apply pow2_le; lia).
    rewrite pow2_add in Hhalf. change (pow2 (-6)) with (1 # 64) in Hhalf.
    change (inject_Z 60) with 60 in HGu. lra.
Qed.

(** *** Numbers that are doubles *)

Lemma maxDouble_ge x : x <= pow2 53 → x <= maxDouble.
Proof.
  intros H. assert (pow2 53 <= maxDouble); [|lra].
  apply Qle_bool_iff. by vm_compute.
Qed.

Lemma on_grid_is_double x k :
  0 < x → x == inject_Z k * ulp x → x <= pow2 53 → is_double x = true.
Proof.
  intros Hx E H53. pose proof (ulp_pos x) as Hu. unfold is_double.
  apply andb_true_intro. split.
  - apply Qeq_bool_iff. rewrite round64_eq by lra.
    rewrite (roundHalfEven_Z _ k); [by symmetry|].
    apply Qeq_sym in E. apply Qeq_sym. apply Qeq_sym in E.
    rewrite E at 1. field. lra.
  - apply Qle_bool_iff. rewrite Qabs_pos by lra. by apply maxDouble_ge.
Qed.

(** The integers up to 2^53 are doubles. *)
Lemma is_double_Z z : (0 ≤ z < 2 ^ 53)%Z → is_double (inject_Z z) = true.
Proof.
  intros [H0 H53]. destruct (decide (z = 0%Z)) as [->|Hz]; [by vm_compute|].
  assert (0 < inject_Z z) as Hx.
  { change 0 with (inject_Z 0). rewrite <- Zlt_Qlt. lia. }
  assert (inject_Z z < pow2 53) as Hlt.
  { rewrite pow2_Z by lia. by rewrite <- Zlt_Qlt. }
  destruct (Z_on_grid (inject_Z z) z Hx Hlt) as [k E].
  apply (on_grid_is_double _ k); [done|done|lra].
Qed.

(** So are the multiples of 2^-53 below 1. *)
Lemma is_double_53 c :
  (0 ≤ c < 2 ^ 53)%Z → is_double (inject_Z c * pow2 (-53)) = true.
Proof.
  intros [H0 H53]. destruct (decide (c = 0%Z)) as [->|Hc]; [by vm_compute|].
  pose proof (pow2_pos (-53)) as Hu.
  set (x := inject_Z c * pow2 (-53)).
  assert (pow2 (-53) <= x) as Hlo.
  { unfold x. assert (1 <= inject_Z c); [|nra].
    change 1 with (inject_Z 1). rewrite <- Zle_Qle. lia. }
  assert (x < 1) as Hhi.
  { unfold x. assert (inject_Z (2 ^ 53) * pow2 (-53) == 1) as <- by reflexivity.
    apply Qmult_lt_compat_r; [done|]. by rewrite <- Zlt_Qlt. }
  assert (0 < x) as Hx by lra.
  destruct (Qlog2_abs x Hx) as [He1 He2].
  assert (ulp x = pow2 (Z.max (Qlog2 (Qabs x) - 52) (-1074))) as Eu by done.
  set (e := Qlog2 (Qabs x)) in *.
  assert (e < 0)%Z as He by (apply pow2_lt_inv; change (pow2 0) with 1; lra).
  assert (-53 < e + 1)%Z as He' by (apply pow2_lt_inv; lra).
  rewrite Z.max_l in Eu by lia.
  apply (on_grid_is_double x (c * 2 ^ (-1 - e))); [done| |].
  - rewrite Eu, inject_Z_mult, <- pow2_Z by lia.
    rewrite <- Qmult_assoc, <- pow2_add.
    by replace (-1 - e + (e - 52))%Z with (-53)%Z by lia.
  - assert (1 <= pow2 53) by (change 1 with (pow2 0); by apply pow2_le). lra.
Qed.

Lemma ulp_le_1 x : 0 < x → x < pow2 53 → ulp x <= 1.
Proof.
  intros Hx H53. destruct (Qlog2_abs x Hx) as [He1 He2]. unfold ulp.
  set (e := Qlog2 (Qabs x)) in *.
  assert (e < 53)%Z as He by (apply pow2_lt_inv; lra).
  change 1 with (pow2 0). apply pow2_le. lia.
Qed.

(** A number in the lower half of the unit interval above an integer
    keeps that integer as its whole part when rounded to a double. *)
Lemma round64_floor x j :
  x < pow2 53 → (0 ≤ j)%Z → inject_Z j <= x → x < inject_Z j + (1 # 2) →
  Qfloor (round64 x) = j.
Proof.
  intros H53 Hj Hlo Hhi.
  assert (0 <= inject_Z j) as Hj'.
  { change 0 with (inject_Z 0). by rewrite <- Zle_Qle. }
  destruct (Qeq_dec x 0) as [E|E].
  { rewrite (round64_0 x E). change (Qfloor 0) with 0%Z.
    assert (inject_Z j <= inject_Z 0) as H by (change (inject_Z 0) with 0; lra).
    rewrite <- Zle_Qle in H. lia. }
  assert (0 < x) as Hx by (destruct (Qlt_le_dec 0 x); [done|exfalso; apply E; lra]).
  apply Qfloor_unique; [by apply round64_ge_Z|].
  eapply Qle_lt_trans; [apply round64_upper|].
  pose proof (ulp_le_1 x Hx H53). rewrite inject_Z_plus.
  change (inject_Z 1) with 1. lra.
Qed.

End DoubleFacts.

(** ** Properties of the focus timer *)

Module TimerFacts.
Import Timer.

Lemma pauseTimer_remaining s : remaining (pauseTimer s) = remaining s.
Proof.
  unfold pauseTimer. destruct (timerRunning s); [|done].
  cbn. by destruct (timerInterval s).
Qed.

Lemma pauseTimer_running s : timerRunning (pauseTimer s) = false.
Proof.
  unfold pauseTimer. destruct (timerRunning s) eqn:E; [|done].
  cbn. by destruct (timerInterval s).
Qed.

Lemma pauseTimer_idle s : timerRunning s = false → pauseTimer s = s.
Proof. intros E. unfold pauseTimer. by rewrite E. Qed.

Lemma pauseTimer_display s : timerDisplay (pauseTimer s) = timerDisplay s.
Proof.
  unfold pauseTimer. destruct (timerRunning s); [|done].
  cbn. by destruct (timerInterval s).
Qed.


Lemma pauseTimer_cleared s :
  handle_ok s →
  timerInterval (pauseTimer s) = None ∧ intervals (pauseTimer s) = ∅.
Proof.
  intros (Hrun & Hset & _). unfold pauseTimer.
  destruct (timerRunning s) eqn:E.
  - cbn. destruct (timerInterval s) as [h|] eqn:Eh; cbn in *.
    + split; [done|]. rewrite Hset. clear. set_solver.
    + destruct Hrun as [Hrun _]. by apply is_Some_None in Hrun.
  - destruct (timerInterval s) as [h|] eqn:Eh; cbn in *.
    + destruct Hrun as [_ Hrun]. by discriminate Hrun.
    + done.
Qed.

Lemma pauseTimer_handle_ok s : handle_ok s → handle_ok (pauseTimer s).
Proof.
  intros H. destruct (pauseTimer_cleared s H) as [Hi Hs].
  repeat split.
  - by rewrite pauseTimer_running.
  - rewrite Hi. by intros [? ?].
  - by rewrite Hi, Hs.
  - rewrite Hs. set_solver.
Qed.

Lemma startTimer_handle_ok s : handle_ok s → handle_ok (startTimer s).
Proof.
  intros H. unfold startTimer.
  destruct (timerRunning s) eqn:E; [done|].
  destruct (_ || _); [|done]. cbn.
  destruct H as (Hrun & Hset & Hlt).
  destruct (timerInterval s) as [h|] eqn:Eh.
  { rewrite E in Hrun. destruct Hrun as [_ Hrun]. by discriminate Hrun. }
  cbn in Hset. repeat split; cbn; eauto.
  - rewrite Hset. set_solver.
  - intros h. rewrite Hset. intros Hin.
    assert (h = nextHandle s) as -> by set_solver. lia.
Qed.

Lemma resetTimer_as_setTimer s : resetTimer s = setTimer 60 s.
Proof. reflexivity. Qed.

Lemma setTimer_remaining m s : remaining (setTimer m s) = (m, 0).
Proof. reflexivity. Qed.

Lemma setTimer_running m s : timerRunning (setTimer m s) = false.
Proof. unfold setTimer. cbn. apply pauseTimer_running. Qed.

Lemma setTimer_handle_ok m s : handle_ok s → handle_ok (setTimer m s).
Proof.
  intros H. apply pauseTimer_handle_ok in H.
  unfold handle_ok in *. cbn. exact H.
Qed.

Lemma timerComplete_handle_ok s : handle_ok s → handle_ok (timerComplete s).
Proof.
  intros H. apply pauseTimer_handle_ok in H.
  destruct H as (Hrun & Hset & Hlt). unfold handle_ok. cbn.
  split; [exact Hrun|]. split; [exact Hset|].
  intros h Hin. specialize (Hlt h Hin). lia.
Qed.

Lemma timerComplete_Completed s : Completed (timerComplete s).
Proof. split; [|done]. unfold timerComplete. cbn. apply pauseTimer_running. Qed.

Lemma timerComplete_remaining s : remaining (timerComplete s) = remaining s.
Proof. unfold timerComplete, remaining. cbn. apply pauseTimer_remaining. Qed.

Lemma tick_remaining s :
  remaining (tick s) =
    if timerSeconds s =? 0
    then if timerMinutes s =? 0 then (0, 0) else (timerMinutes s - 1, 59)
    else (timerMinutes s, timerSeconds s - 1).
Proof.
  unfold tick.
  destruct (timerSeconds s =? 0) eqn:Es; [|done].
  destruct (timerMinutes s =? 0) eqn:Em; [|done].
  rewrite timerComplete_remaining. unfold remaining. f_equal; lia.
Qed.

Lemma tick_handle_ok s : handle_ok s → handle_ok (tick s).
Proof.
  intros H. unfold tick.
  destruct (timerSeconds s =? 0); [destruct (timerMinutes s =? 0)|];
    [by apply timerComplete_handle_ok|done|done].
Qed.

Lemma tick_time_ok s : time_ok s → time_ok (tick s).
Proof.
  intros [Hm Hs]. pose proof (tick_remaining s) as Hr.
  unfold time_ok. unfold remaining in Hr.
  destruct (timerSeconds s =? 0) eqn:Es; [destruct (timerMinutes s =? 0) eqn:Em|];
    injection Hr as -> ->; lia.
Qed.

Lemma handle_time_ok e s : time_ok s → time_ok (handle e s).
Proof.
  intros Ht. destruct e as [| | |p|h|h]; cbn.
  - unfold startTimer. by destruct (_ && _).
  - pose proof (pauseTimer_remaining s) as Hr. unfold time_ok.
    by injection Hr as -> ->.
  - unfold time_ok. cbn. lia.
  - unfold time_ok. destruct p; cbn; lia.
  - unfold interval_fires. destruct (decide _); [|done].
    by apply tick_time_ok.
  - unfold timeout_fires. destruct (decide _); [|done].
    unfold time_ok; cbn; lia.
Qed.

Lemma handle_handle_ok e s : handle_ok s → handle_ok (handle e s).
Proof.
  intros Hh. destruct e as [| | |p|h|h]; cbn.
  - by apply startTimer_handle_ok.
  - by apply pauseTimer_handle_ok.
  - by apply setTimer_handle_ok.
  - by apply setTimer_handle_ok.
  - unfold interval_fires. destruct (decide _); [|done].
    by apply tick_handle_ok.
  - unfold timeout_fires. destruct (decide _); [|done].
    apply setTimer_handle_ok. by destruct Hh as (Hrun & Hset & Hlt).
Qed.

Lemma initial_time_ok startText startDisabled :
  time_ok (initial startText startDisabled).
Proof. unfold time_ok; cbn; lia. Qed.

Lemma initial_handle_ok startText startDisabled :
  handle_ok (initial startText startDisabled).
Proof. repeat split; cbn; done. Qed.

(** Every state the timer reaches from a well-formed one is well-formed,
    whatever the clicks and however the host schedules the callbacks. *)
Lemma run_time_ok es s : time_ok s → time_ok (run es s).
Proof.
  revert s. induction es as [|e es IH]; intros s H; [done|].
  cbn. apply IH. by apply handle_time_ok.
Qed.

Lemma run_handle_ok es s : handle_ok s → handle_ok (run es s).
Proof.
  revert s. induction es as [|e es IH]; intros s H; [done|].
  cbn. apply IH. by apply handle_handle_ok.
Qed.

Lemma run_app es1 es2 s : run (es1 ++ es2) s = run es2 (run es1 s).
Proof. unfold run. apply foldl_app. Qed.

Lemma tick_at_zero s : remaining s = (0, 0) → tick s = timerComplete s.
Proof.
  intros Hr. unfold remaining in Hr. injection Hr as Hm Hs.
  unfold tick. by rewrite Hs, Hm.
Qed.

Lemma tick_nonneg s :
  0 ≤ timerMinutes s → 0 ≤ timerSeconds s →
  0 ≤ timerMinutes (tick s) ∧ 0 ≤ timerSeconds (tick s).
Proof.
  intros Hm Hs. pose proof (tick_remaining s) as Hr. unfold remaining in Hr.
  destruct (Z.eqb_spec (timerSeconds s) 0);
    [destruct (Z.eqb_spec (timerMinutes s) 0)|];
    inversion Hr; lia.
Qed.

Lemma iter_tick_nonneg n s :
  0 ≤ timerMinutes s → 0 ≤ timerSeconds s →
  0 ≤ timerMinutes (Nat.iter n tick s) ∧ 0 ≤ timerSeconds (Nat.iter n tick s).
Proof.
  intros Hm Hs. induction n as [|n [IHm IHs]]; [done|].
  change (Nat.iter (S n) tick s) with (tick (Nat.iter n tick s)).
  by apply tick_nonneg.
Qed.

(** C1. [startTimer] changes nothing when the timer is already running or
    when the remaining time is exactly 0 minutes 0 seconds; otherwise it
    sets the timer running on a fresh interval whose callback is the tick,
    leaving the remaining time as it is.  A tick takes one second off,
    borrowing a minute (minutes - 1, 59 seconds) when the seconds are 0 and
    minutes are left; when both are 0 it completes the session instead of
    counting down.  So no number of ticks makes the remaining time negative;
    from 0:01 one tick gives 0:00 and the next one completes. *)
Theorem startTimer_tick_countdown (s : state) :
  0 ≤ timerMinutes s → 0 ≤ timerSeconds s →
  (if timerRunning s || ((timerMinutes s =? 0) && (timerSeconds s =? 0))
   then startTimer s = s
   else timerRunning (startTimer s) = true
        ∧ timerInterval (startTimer s) = Some (nextHandle s)
        ∧ interval_fires (nextHandle s) (startTimer s) = tick (startTimer s)
        ∧ remaining (startTimer s) = remaining s)
  ∧ (if timerSeconds s =? 0
     then if timerMinutes s =? 0
          then tick s = timerComplete s
               ∧ Completed (tick s)
               ∧ remaining (tick s) = (0, 0)
          else remaining (tick s) = (timerMinutes s - 1, 59)
     else remaining (tick s) = (timerMinutes s, timerSeconds s - 1))
  ∧ (∀ n, 0 ≤ timerMinutes (Nat.iter n tick s)
          ∧ 0 ≤ timerSeconds (Nat.iter n tick s))
  ∧ (remaining s = (0, 1) →
     remaining (tick s) = (0, 0) ∧ Completed (tick (tick s))
     ∧ remaining (tick (tick s)) = (0, 0)).
Proof.
  intros Hm Hs. repeat apply conj.
  - unfold startTimer.
    destruct (timerRunning s) eqn:Er; cbn [negb andb orb]; [done|].
    destruct (timerMinutes s =? 0) eqn:Em, (timerSeconds s =? 0) eqn:Es;
      cbn [andb orb].
    + replace (timerMinutes s >? 0) with false by lia.
      by replace (timerSeconds s >? 0) with false by lia.
    + replace (timerSeconds s >? 0) with true by lia.
      rewrite orb_true_r. cbn. repeat split.
      unfold interval_fires. cbn. rewrite decide_True; [done|set_solver].
    + replace (timerMinutes s >? 0) with true by lia.
      cbn. repeat split.
      unfold interval_fires. cbn. rewrite decide_True; [done|set_solver].
    + replace (timerMinutes s >? 0) with true by lia.
      cbn. repeat split.
      unfold interval_fires. cbn. rewrite decide_True; [done|set_solver].
  - pose proof (tick_remaining s) as Hr. unfold tick in *.
    destruct (timerSeconds s =? 0); [|done].
    destruct (timerMinutes s =? 0); [|done].
    split; [done|]. split; [apply timerComplete_Completed|done].
  - intros n. by apply iter_tick_nonneg.
  - intros Hr. injection Hr as Hm1 Hs1.
    pose proof (tick_remaining s) as Ht. rewrite Hm1, Hs1 in Ht. cbn in Ht.
    split; [done|]. rewrite (tick_at_zero (tick s) Ht).
    split; [apply timerComplete_Completed|].
    by rewrite timerComplete_remaining.
Qed.

Lemma startTimer_tick_countdown_witness :
  remaining (tick (tick (set_timerSeconds 1 (set_timerMinutes 0 (initial "Start" false)))))
    = (0, 0)
  ∧ startTimer (tick (tick (set_timerSeconds 1 (set_timerMinutes 0 (initial "Start" false)))))
    = tick (tick (set_timerSeconds 1 (set_timerMinutes 0 (initial "Start" false)))).
Proof.
  pose proof (startTimer_tick_countdown
                (set_timerSeconds 1 (set_timerMinutes 0 (initial "Start" false)))
                ltac:(cbn; lia) ltac:(cbn; lia)) as (_ & _ & _ & H).
  destruct (H eq_refl) as (_ & _ & H2).
  split; [exact H2|]. vm_compute. reflexivity.
Defined.

(** C9. [pauseTimer] stops the tick and keeps the remaining time: minutes,
    seconds and the display stay as they are, the timer is no longer
    running, its handle is cleared and the host fires no interval any more;
    a timer that is not running is left exactly as it is.  The handle is
    set exactly while the timer runs, before the pause and after it. *)
Theorem pauseTimer_keeps_remaining (s : state) :
  handle_ok s →
  remaining (pauseTimer s) = remaining s
  ∧ timerDisplay (pauseTimer s) = timerDisplay s
  ∧ timerRunning (pauseTimer s) = false
  ∧ timerInterval (pauseTimer s) = None
  ∧ intervals (pauseTimer s) = ∅
  ∧ (∀ h, interval_fires h (pauseTimer s) = pauseTimer s)
  ∧ (timerRunning s = false → pauseTimer s = s)
  ∧ handle_ok (pauseTimer s).
Proof.
  intros H. destruct (pauseTimer_cleared s H) as [Hi Hs].
  split; [apply pauseTimer_remaining|].
  split; [apply pauseTimer_display|].
  split; [apply pauseTimer_running|].
  split; [exact Hi|]. split; [exact Hs|].
  split; [|split; [apply pauseTimer_idle|by apply pauseTimer_handle_ok]].
  intros h. unfold interval_fires. rewrite Hs.
  by rewrite decide_False by set_solver.
Qed.

Lemma pauseTimer_keeps_remaining_witness :
  remaining (pauseTimer (tick (startTimer (setTimer 15 (initial "Start" false)))))
    = (14, 59)
  ∧ timerRunning (pauseTimer (tick (startTimer (setTimer 15 (initial "Start" false)))))
    = false.
Proof.
  pose proof (pauseTimer_keeps_remaining
                (tick (startTimer (setTimer 15 (initial "Start" false))))) as H.
  destruct H as (Hr & _ & Hrun & _).
  - apply tick_handle_ok, startTimer_handle_ok, setTimer_handle_ok,
      initial_handle_ok.
  - split; [|exact Hrun]. rewrite Hr. vm_compute. reflexivity.
Defined.

(** C7. [resetTimer] puts the remaining time back to the default 60:00
    and leaves the timer stopped with no interval firing, whatever came
    before it; in particular after the 30-minute preset, a start and a
    pause, where the remaining time was 30:00 before the reset. *)
Theorem resetTimer_restores_default (es : list event) (s : state) :
  handle_ok s →
  (remaining (run (es ++ [ClickReset]) s) = (60, 0)
   ∧ timerDisplay (run (es ++ [ClickReset]) s) = "60:00"%string
   ∧ timerRunning (run (es ++ [ClickReset]) s) = false
   ∧ timerInterval (run (es ++ [ClickReset]) s) = None
   ∧ intervals (run (es ++ [ClickReset]) s) = ∅)
  ∧ remaining (run [ClickPreset Preset30; ClickStart; ClickPause] s) = (30, 0)
  ∧ remaining
      (run [ClickPreset Preset30; ClickStart; ClickPause; ClickReset] s) = (60, 0).
Proof.
  intros H. split; [|split].
  - rewrite run_app. cbn [run foldl handle].
    apply (run_handle_ok es) in H. fold (run es s).
    generalize dependent (run es s). intros t H.
    destruct (pauseTimer_cleared t H) as [Hi Hs].
    split; [done|]. split; [done|].
    split; [apply setTimer_running|]. by split.
  - cbn [run foldl handle]. rewrite pauseTimer_remaining.
    unfold startTimer. rewrite setTimer_running. done.
  - done.
Qed.

Lemma resetTimer_restores_default_witness :
  remaining
    (run ([ClickPreset Preset30; ClickStart; IntervalFires 1; ClickPause]
            ++ [ClickReset]) (initial "Start" false)) = (60, 0)
  ∧ remaining
      (run [ClickPreset Preset30; ClickStart; IntervalFires 1; ClickPause]
         (initial "Start" false)) = (29, 59).
Proof.
  pose proof (resetTimer_restores_default
                [ClickPreset Preset30; ClickStart; IntervalFires 1; ClickPause]
                (initial "Start" false)
                (initial_handle_ok "Start" false)) as [(Hr & _) _].
  split; [exact Hr|]. vm_compute. reflexivity.
Defined.

End TimerFacts.

(** ** Properties of the playlist and the playback controls *)

Module PlayerFacts.
Import Player.

Lemma randomIndex_bounds r n :
  draw_ok r → 0 < n → 0 ≤ randomIndex r n < n.
Proof.
  intros (Hd & H0 & H1) Hn. unfold randomIndex.
  destruct (DoubleFacts.round64_fraction r n Hd H0 H1 Hn) as [Hlo Hhi].
  split.
  - change 0 with (Qfloor 0). by apply Qfloor_resp_le.
  - rewrite Zlt_Qlt. eapply Qle_lt_trans; [apply Qfloor_le|done].
Qed.

Lemma loadTrack_tracks index p : tracks (loadTrack index p) = tracks p.
Proof.
  unfold loadTrack. destruct index as [i|]; [|done].
  destruct (_ && _); [|done]. by destruct (tracks p !! Z.to_nat i).
Qed.

Lemma loadTrack_trackCount index p : trackCount (loadTrack index p) = trackCount p.
Proof. unfold trackCount. by rewrite loadTrack_tracks. Qed.

Lemma loadTrack_isPlaying index p : isPlaying (loadTrack index p) = isPlaying p.
Proof.
  unfold loadTrack. destruct index as [i|]; [|done].
  destruct (_ && _); [|done]. by destruct (tracks p !! Z.to_nat i).
Qed.

Lemma loadTrack_isShuffled index p : isShuffled (loadTrack index p) = isShuffled p.
Proof.
  unfold loadTrack. destruct index as [i|]; [|done].
  destruct (_ && _); [|done]. by destruct (tracks p !! Z.to_nat i).
Qed.

Lemma lookup_track p i :
  0 ≤ i < trackCount p → is_Some (tracks p !! Z.to_nat i).
Proof. intros H. apply lookup_lt_is_Some. unfold trackCount in H. lia. Qed.

Lemma loadTrack_currentTrackIndex i p :
  0 ≤ i < trackCount p → currentTrackIndex (loadTrack (JS.Int i) p) = i.
Proof.
  intros H. destruct (lookup_track p i H) as [t Ht]. unfold loadTrack.
  replace ((0 <=? i) && (i <? trackCount p)) with true by lia.
  by rewrite Ht.
Qed.

(** Outside the playlist, [loadTrack] does nothing at all. *)
Lemma loadTrack_out_of_range i p :
  ¬ (0 ≤ i < trackCount p) → loadTrack (JS.Int i) p = p.
Proof.
  intros H. unfold loadTrack.
  by replace ((0 <=? i) && (i <? trackCount p)) with false by lia.
Qed.

Lemma loadTrack_index_ok index p : index_ok p → index_ok (loadTrack index p).
Proof.
  intros H. destruct index as [i|]; [|done].
  destruct (decide (0 ≤ i < trackCount p)) as [Hi|Hi].
  - unfold index_ok. by rewrite loadTrack_trackCount, loadTrack_currentTrackIndex.
  - by rewrite loadTrack_out_of_range.
Qed.

Lemma audio_play_if_index_ok (b : bool) p :
  index_ok p → index_ok (if b then audio_play p else p).
Proof. by destruct b. Qed.

Lemma handle_index_ok e p : index_ok p → index_ok (handle e p).
Proof.
  intros Hp. destruct e; cbn [handle]; try done.
  - unfold togglePlayPause. by destruct (isPlaying p).
  - unfold playNext. by apply audio_play_if_index_ok, loadTrack_index_ok.
  - unfold playPrevious. by apply audio_play_if_index_ok, loadTrack_index_ok.
  - by apply loadTrack_index_ok.
  - unfold handleTrackEnd. destruct (isRepeating p); [done|].
    unfold playNext. by apply audio_play_if_index_ok, loadTrack_index_ok.
  - by apply loadTrack_index_ok.
Qed.

Lemma audio_play_if_tracks (b : bool) p :
  tracks (if b then audio_play p else p) = tracks p.
Proof. by destruct b. Qed.

Lemma handle_tracks e p : tracks (handle e p) = tracks p.
Proof.
  destruct e; cbn [handle]; try done.
  - unfold togglePlayPause. by destruct (isPlaying p).
  - unfold playNext. by rewrite audio_play_if_tracks, loadTrack_tracks.
  - unfold playPrevious. by rewrite audio_play_if_tracks, loadTrack_tracks.
  - apply loadTrack_tracks.
  - unfold handleTrackEnd. destruct (isRepeating p); [done|].
    unfold playNext. by rewrite audio_play_if_tracks, loadTrack_tracks.
  - apply loadTrack_tracks.
Qed.

Lemma run_index_ok es p : index_ok p → index_ok (run es p).
Proof.
  revert p. induction es as [|e es IH]; intros p Hp; [done|].
  cbn. apply IH. by apply handle_index_ok.
Qed.

Lemma run_tracks es p : tracks (run es p) = tracks p.
Proof.
  revert p. induction es as [|e es IH]; intros p; [done|].
  cbn. fold (run es (handle e p)). by rewrite IH, handle_tracks.
Qed.

Lemma run_trackCount es p : trackCount (run es p) = trackCount p.
Proof. unfold trackCount. by rewrite run_tracks. Qed.

(** What [loadTracks] builds from the track items of the page. *)
Lemma omap_items doc (items : list nat) :
  Forall (λ i, (i < length doc)%nat) items →
  element <$> omap (λ item, (λ e, mkTrack (dataset_src e) (dataset_title e) item)
                              <$> (doc !! item)) items = items.
Proof.
  induction 1 as [|i items Hi _ IH]; [done|].
  destruct (lookup_lt_is_Some_2 doc i Hi) as [e He].
  cbn. rewrite He. cbn. by rewrite IH.
Qed.

Lemma querySelectorAll_lt cls doc :
  Forall (λ i, (i < length doc)%nat) (querySelectorAll cls doc).
Proof.
  apply Forall_forall. intros i Hi. unfold querySelectorAll in Hi.
  apply list_elem_of_filter in Hi as [_ Hi]. apply elem_of_seq in Hi. lia.
Qed.

Lemma loadTracks_tracks_ok p : tracks_ok (loadTracks p).
Proof.
  unfold tracks_ok, loadTracks. cbn. apply omap_items, querySelectorAll_lt.
Qed.

Lemma loadTracks_trackCount p :
  trackCount (loadTracks p)
  = Z.of_nat (length (querySelectorAll "track-item" (document p))).
Proof.
  pose proof (loadTracks_tracks_ok p) as H. unfold tracks_ok in H.
  unfold trackCount. rewrite <- (length_fmap element), H. done.
Qed.

(** On a page with at least one track item, the constructor leaves the
    first track current. *)
Lemma constructed_index_ok doc titleText barValue fillWidth fillClasses
    containerClasses timeText :
  querySelectorAll "track-item" doc ≠ [] →
  index_ok (constructed doc titleText barValue fillWidth fillClasses
              containerClasses timeText)
  ∧ currentTrackIndex (constructed doc titleText barValue fillWidth fillClasses
                         containerClasses timeText) = 0.
Proof.
  intros Hne. unfold constructed.
  set (p0 := mkState _ _ _ _ _ _ _ _ _ _ _ _ _ _).
  assert (0 ≤ 0 < trackCount (loadTracks p0)) as H0.
  { rewrite loadTracks_trackCount. cbn [document p0].
    destruct (querySelectorAll "track-item" doc); [done|]. cbn. lia. }
  unfold index_ok. by rewrite loadTrack_trackCount, loadTrack_currentTrackIndex.
Qed.

(** C3. The current index stays a position of the playlist: from a state
    where it is one, it still is one after [playNext] (shuffled or not,
    whatever [Math.random ()] returns), after [playPrevious], after
    [loadTrack] at any index, and after any sequence of clicks and media
    events; the playlist keeps its length throughout. *)
Theorem currentTrackIndex_in_bounds (es : list event) (p : state) :
  index_ok p →
  (∀ r, index_ok (playNext r p))
  ∧ (∀ r, draw_ok r → isShuffled p = true →
          currentTrackIndex (playNext r p) = randomIndex r (trackCount p)
          ∧ 0 ≤ randomIndex r (trackCount p) < trackCount p)
  ∧ index_ok (playPrevious p)
  ∧ (∀ index, index_ok (loadTrack index p))
  ∧ index_ok (run es p)
  ∧ trackCount (run es p) = trackCount p.
Proof.
  intros H. split; [|split; [|split; [|split; [|split]]]].
  - intros r. by apply (handle_index_ok (ClickNext r)).
  - intros r Hr Hon.
    assert (0 ≤ randomIndex r (trackCount p) < trackCount p) as Hb
        by (apply randomIndex_bounds; [done|unfold index_ok in H; lia]).
    split; [|done]. unfold playNext. rewrite Hon.
    destruct (isPlaying _); by apply loadTrack_currentTrackIndex.
  - by apply (handle_index_ok ClickPrevious).
  - intros index. by apply loadTrack_index_ok.
  - by apply run_index_ok.
  - apply run_trackCount.
Qed.

Lemma currentTrackIndex_in_bounds_witness :
  index_ok (run [ClickShuffle; ClickNext (6004799503160661 # 9007199254740992);
                 ClickPrevious; ClickTrack (-1); LoadTrack JS.NaN; Ended (0 # 1)]
              player_ABC).
Proof.
  apply (currentTrackIndex_in_bounds
           [ClickShuffle; ClickNext (6004799503160661 # 9007199254740992);
            ClickPrevious; ClickTrack (-1); LoadTrack JS.NaN; Ended (0 # 1)]
           player_ABC).
  unfold index_ok. vm_compute. split; [discriminate|reflexivity].
Defined.

Lemma audio_play_if_currentTrackIndex (b : bool) p :
  currentTrackIndex (if b then audio_play p else p) = currentTrackIndex p.
Proof. by destruct b. Qed.

Lemma audio_play_if_isShuffled (b : bool) p :
  isShuffled (if b then audio_play p else p) = isShuffled p.
Proof. by destruct b. Qed.

Lemma audio_play_if_audio_src (b : bool) p :
  audio_src (if b then audio_play p else p) = audio_src p.
Proof. by destruct b. Qed.

Lemma audio_play_if_trackTitle (b : bool) p :
  trackTitle (if b then audio_play p else p) = trackTitle p.
Proof. by destruct b. Qed.

Lemma loadTrack_loaded i t p :
  0 ≤ i < trackCount p → tracks p !! Z.to_nat i = Some t →
  audio_src (loadTrack (JS.Int i) p) = src t
  ∧ trackTitle (loadTrack (JS.Int i) p) = title t.
Proof.
  intros H Ht. unfold loadTrack.
  replace ((0 <=? i) && (i <? trackCount p)) with true by lia.
  by rewrite Ht.
Qed.

Section Unshuffled.
Variable p : state.
Hypothesis Hoff : isShuffled p = false.
Hypothesis Hidx : index_ok p.

Lemma unshuffled_nextIndex :
  JS.rem (currentTrackIndex p + 1) (trackCount p)
  = JS.Int ((currentTrackIndex p + 1) `mod` trackCount p).
Proof.
  unfold index_ok in Hidx. unfold JS.rem.
  replace (trackCount p =? 0) with false by lia.
  f_equal. apply Z.rem_mod_nonneg; lia.
Qed.

Lemma playNext_unshuffled r :
  playNext r p
  = let q := loadTrack (JS.Int ((currentTrackIndex p + 1) `mod` trackCount p)) p in
    if isPlaying q then audio_play q else q.
Proof. unfold playNext. by rewrite Hoff, unshuffled_nextIndex. Qed.

Lemma playNext_index r :
  currentTrackIndex (playNext r p)
  = (currentTrackIndex p + 1) `mod` trackCount p.
Proof.
  rewrite playNext_unshuffled. cbv zeta.
  rewrite audio_play_if_currentTrackIndex. apply loadTrack_currentTrackIndex.
  unfold index_ok in Hidx. apply Z.mod_pos_bound. lia.
Qed.

Lemma playNext_isShuffled r : isShuffled (playNext r p) = false.
Proof.
  unfold playNext. by rewrite audio_play_if_isShuffled, loadTrack_isShuffled.
Qed.

Lemma playNext_loaded r t :
  tracks p !! Z.to_nat ((currentTrackIndex p + 1) `mod` trackCount p) = Some t →
  audio_src (playNext r p) = src t ∧ trackTitle (playNext r p) = title t.
Proof.
  intros Ht. rewrite playNext_unshuffled. cbv zeta.
  rewrite audio_play_if_audio_src, audio_play_if_trackTitle.
  apply loadTrack_loaded; [|done].
  unfold index_ok in Hidx. apply Z.mod_pos_bound. lia.
Qed.
End Unshuffled.

Lemma playNext_tracks r p : tracks (playNext r p) = tracks p.
Proof. apply (handle_tracks (ClickNext r)). Qed.

Lemma playNext_trackCount r p : trackCount (playNext r p) = trackCount p.
Proof. unfold trackCount. by rewrite playNext_tracks. Qed.

Lemma playNext_trace_unshuffled rs p :
  isShuffled p = false → index_ok p →
  playNext_trace rs p
  = (λ k, (currentTrackIndex p + Z.of_nat k) `mod` trackCount p)
      <$> seq 1 (length rs).
Proof.
  revert p. induction rs as [|r rs IH]; intros p Hoff Hidx; [done|].
  cbn [playNext_trace length seq fmap list_fmap].
  rewrite IH; [|by apply playNext_isShuffled
               |by apply (handle_index_ok (ClickNext r))].
  rewrite playNext_index, playNext_trackCount by done.
  rewrite <- (fmap_S_seq 1), <- list_fmap_compose.
  f_equal. apply list_fmap_ext. intros _ k _. cbn [compose].
  rewrite Z.add_mod_idemp_l by (unfold index_ok in Hidx; lia).
  f_equal. lia.
Qed.

Lemma playNext_iterated rs p :
  isShuffled p = false → index_ok p →
  let q := foldl (λ p r, playNext r p) p rs in
  isShuffled q = false ∧ index_ok q ∧ tracks q = tracks p
  ∧ currentTrackIndex q
    = (currentTrackIndex p + Z.of_nat (length rs)) `mod` trackCount p.
Proof.
  revert p. induction rs as [|r rs IH]; intros p Hoff Hidx.
  - cbn. repeat split; try done; try apply Hidx.
    rewrite Z.add_0_r. symmetry. by apply Z.mod_small.
  - cbn [foldl length].
    destruct (IH (playNext r p)) as (H1 & H2 & H3 & H4);
      [by apply playNext_isShuffled|by apply (handle_index_ok (ClickNext r))|].
    cbv zeta. split; [done|]. split; [done|].
    split; [by rewrite H3, playNext_tracks|].
    rewrite H4, playNext_index, playNext_trackCount by done.
    rewrite Z.add_mod_idemp_l by (unfold index_ok in Hidx; lia).
    f_equal. lia.
Qed.

(** C2. With shuffle off, [playNext] makes the next index current, going
    back to 0 after the last track; the indices it visits call after call
    are the current one plus 1, 2, ... modulo the number of tracks, and
    after as many calls as there are tracks the original track is current
    and loaded again.  On the playlist A, B, C, from index 0, three calls
    visit 1, 2 and 0. *)
Theorem playNext_cycles (rs : list Q) (p : state) :
  isShuffled p = false → index_ok p →
  (∀ r, currentTrackIndex (playNext r p)
        = (currentTrackIndex p + 1) `mod` trackCount p)
  ∧ playNext_trace rs p
    = (λ k, (currentTrackIndex p + Z.of_nat k) `mod` trackCount p)
        <$> seq 1 (length rs)
  ∧ (length rs = length (tracks p) →
     currentTrackIndex (foldl (λ p r, playNext r p) p rs) = currentTrackIndex p
     ∧ ∀ t, tracks p !! Z.to_nat (currentTrackIndex p) = Some t →
            audio_src (foldl (λ p r, playNext r p) p rs) = src t
            ∧ trackTitle (foldl (λ p r, playNext r p) p rs) = title t).
Proof.
  intros Hoff Hidx. split; [|split].
  - intros r. by apply playNext_index.
  - by apply playNext_trace_unshuffled.
  - intros Hlen.
    assert (0 ≤ currentTrackIndex p < Z.of_nat (length rs)) as Hin
        by (rewrite Hlen; exact Hidx).
    revert Hlen Hin.
    destruct rs as [|r rs _] using rev_ind; intros Hlen Hin;
      [cbn [length Z.of_nat] in Hin; lia|].
    rewrite foldl_app. cbn [foldl].
    destruct (playNext_iterated rs p Hoff Hidx) as (H1 & H2 & H3 & H4).
    cbv zeta in H1, H2, H3, H4.
    set (q := foldl (λ p r, playNext r p) p rs) in *.
    assert (trackCount q = trackCount p) as Hn by (unfold trackCount; by rewrite H3).
    assert ((currentTrackIndex q + 1) `mod` trackCount q = currentTrackIndex p)
      as Hback.
    { pose proof Hidx as [Hlo Hhi].
      rewrite H4, Hn. rewrite Z.add_mod_idemp_l by lia.
      rewrite length_app in Hlen, Hin. cbn [length] in Hlen, Hin.
      replace (currentTrackIndex p + Z.of_nat (length rs) + 1)
        with (currentTrackIndex p + 1 * trackCount p)
        by (unfold trackCount; lia).
      rewrite Z.mod_add by lia. by apply Z.mod_small. }
    split; [by rewrite playNext_index|].
    intros t Ht. apply playNext_loaded; [done|done|].
    by rewrite Hback, H3.
Qed.

Lemma playNext_cycles_witness :
  playNext_trace [1 # 2; 0 # 1; 9 # 10]%Q player_ABC = [1; 2; 0]
  ∧ audio_src (foldl (λ p r, playNext r p) player_ABC [1 # 2; 0 # 1; 9 # 10]%Q)
    = "a.mp3"%string.
Proof.
  pose proof (playNext_cycles [1 # 2; 0 # 1; 9 # 10]%Q player_ABC) as H.
  destruct H as (_ & Htrace & Hcycle).
  - vm_compute. reflexivity.
  - unfold index_ok. vm_compute. split; [discriminate|reflexivity].
  - split; [rewrite Htrace; vm_compute; reflexivity|].
    destruct (Hcycle eq_refl) as [_ Hsrc].
    apply (Hsrc (mkTrack "a.mp3" "A" 0)). vm_compute. reflexivity.
Defined.

(** *** The active marker *)

Lemma contains_remove c d l :
  JS.classList_contains c (JS.classList_remove d l)
  = if decide (c = d) then false else JS.classList_contains c l.
Proof.
  unfold JS.classList_contains, JS.classList_remove.
  destruct (decide (c = d)) as [->|Hne].
  - apply bool_decide_eq_false. rewrite list_elem_of_filter. tauto.
  - apply bool_decide_ext. rewrite list_elem_of_filter. tauto.
Qed.

Lemma contains_add c d l :
  JS.classList_contains c (JS.classList_add d l)
  = if decide (c = d) then true else JS.classList_contains c l.
Proof.
  unfold JS.classList_contains, JS.classList_add.
  destruct (decide (c = d)) as [->|Hne].
  - apply bool_decide_eq_true. destruct (decide (d ∈ l)); [done|].
    apply elem_of_app. right. by apply list_elem_of_singleton.
  - apply bool_decide_ext. destruct (decide (d ∈ l)); [done|].
    rewrite elem_of_app, list_elem_of_singleton. tauto.
Qed.

Lemma has_class_removeActive_other c doc k :
  c ≠ "active"%string →
  has_class c (removeActive <$> doc) k = has_class c doc k.
Proof.
  intros Hc. unfold has_class. rewrite list_lookup_fmap.
  destruct (doc !! k) as [e|]; [|done]. cbn. unfold removeActive.
  destruct (JS.classList_contains "track-item" (classList e)); [|done].
  cbn. rewrite contains_remove. by rewrite decide_False.
Qed.

Lemma has_class_removeActive doc k :
  has_class "track-item" doc k = true →
  has_class "active" (removeActive <$> doc) k = false.
Proof.
  unfold has_class. rewrite list_lookup_fmap.
  destruct (doc !! k) as [e|]; [|done]. cbn. unfold removeActive.
  intros ->. cbn. rewrite contains_remove. by rewrite decide_True.
Qed.

Lemma has_class_addActive_other c n doc k :
  c ≠ "active"%string ∨ n ≠ k →
  has_class c (alter addActive n doc) k = has_class c doc k.
Proof.
  intros Hc. unfold has_class. rewrite list_lookup_alter.
  destruct (decide (n = k)) as [->|Hne]; [|done].
  destruct Hc as [Hc|Hc]; [|done].
  destruct (doc !! k) as [e|]; [|done]. cbn.
  rewrite contains_add. by rewrite decide_False.
Qed.

Lemma has_class_addActive doc k :
  (k < length doc)%nat → has_class "active" (alter addActive k doc) k = true.
Proof.
  intros Hk. unfold has_class. rewrite list_lookup_alter_eq.
  destruct (lookup_lt_is_Some_2 doc k Hk) as [e ->]. cbn.
  rewrite contains_add. by rewrite decide_True.
Qed.

Lemma querySelectorAll_ext cls doc doc' :
  length doc' = length doc →
  (∀ k, has_class cls doc' k = has_class cls doc k) →
  querySelectorAll cls doc' = querySelectorAll cls doc.
Proof.
  intros Hlen Hext. unfold querySelectorAll. rewrite Hlen.
  apply list_filter_iff. intros k. by rewrite Hext.
Qed.

Lemma NoDup_querySelectorAll cls doc : NoDup (querySelectorAll cls doc).
Proof. apply NoDup_filter, NoDup_seq. Qed.

Lemma elem_of_querySelectorAll cls doc k :
  k ∈ querySelectorAll cls doc ↔ has_class cls doc k = true.
Proof.
  unfold querySelectorAll. rewrite list_elem_of_filter, elem_of_seq.
  split; [intros [H _]; by apply Is_true_true|].
  intros H. split; [by apply Is_true_true|].
  unfold has_class in H. destruct (doc !! k) eqn:E; [|done].
  apply lookup_lt_Some in E. lia.
Qed.

Lemma marked_track_items n doc :
  querySelectorAll "track-item" (marked n doc) = querySelectorAll "track-item" doc.
Proof.
  unfold marked. apply querySelectorAll_ext.
  - by rewrite length_alter, length_fmap.
  - intros k. rewrite has_class_addActive_other by (by left).
    by apply has_class_removeActive_other.
Qed.

Lemma marked_active n doc k :
  has_class "track-item" doc n = true →
  has_class "track-item" doc k = true →
  has_class "active" (marked n doc) k = bool_decide (k = n).
Proof.
  intros Hn Hk. unfold marked. destruct (decide (k = n)) as [->|Hne].
  - rewrite bool_decide_eq_true_2 by done. apply has_class_addActive.
    rewrite length_fmap. unfold has_class in Hn.
    destruct (doc !! n) eqn:E; [|done]. by apply lookup_lt_Some in E.
  - rewrite bool_decide_eq_false_2 by done.
    rewrite has_class_addActive_other by (right; congruence).
    by apply has_class_removeActive.
Qed.

Lemma filter_none {A} (P : A → bool) (l : list A) :
  (∀ j x, l !! j = Some x → P x = false) → filter (λ x, P x) l = [].
Proof.
  induction l as [|x l IH]; intros H; [done|].
  rewrite filter_cons_False by (rewrite (H 0%nat x eq_refl); exact id).
  apply IH. intros j y Hy. by apply (H (S j)).
Qed.

Lemma filter_one {A} (P : A → bool) (l : list A) (i : nat) :
  (i < length l)%nat →
  (∀ j x, l !! j = Some x → P x = bool_decide (j = i)) →
  length (filter (λ x, P x) l) = 1%nat.
Proof.
  revert i. induction l as [|x l IH]; intros i Hi H; [cbn in Hi; lia|].
  destruct i as [|i].
  - rewrite filter_cons_True by (rewrite (H 0%nat x eq_refl); exact I).
    rewrite filter_none; [done|].
    intros j y Hy. by rewrite (H (S j) y Hy).
  - rewrite filter_cons_False by (rewrite (H 0%nat x eq_refl); exact id).
    apply (IH i); [cbn in Hi; lia|].
    intros j y Hy. rewrite (H (S j) y Hy).
    apply bool_decide_ext. lia.
Qed.

Section LoadTrack.
Variables (p : state) (i : Z) (t : Track).
Hypothesis Hok : tracks_ok p.
Hypothesis Hin : 0 ≤ i < trackCount p.
Hypothesis Ht : tracks p !! Z.to_nat i = Some t.

Lemma loadTrack_document :
  document (loadTrack (JS.Int i) p) = marked (element t) (document p).
Proof.
  unfold loadTrack.
  replace ((0 <=? i) && (i <? trackCount p)) with true by lia.
  by rewrite Ht.
Qed.

Lemma track_is_item j u :
  tracks p !! j = Some u → has_class "track-item" (document p) (element u) = true.
Proof.
  intros Hu. apply elem_of_querySelectorAll. rewrite <- Hok.
  apply list_elem_of_fmap. exists u. split; [done|].
  by apply list_elem_of_lookup_2 in Hu.
Qed.

Lemma track_element_inj j u :
  tracks p !! j = Some u → element u = element t ↔ j = Z.to_nat i.
Proof.
  intros Hu. split.
  - intros He. pose proof (NoDup_querySelectorAll "track-item" (document p)) as Hnd.
    rewrite <- Hok in Hnd.
    apply (NoDup_lookup _ j (Z.to_nat i) (element u) Hnd);
      rewrite list_lookup_fmap; [by rewrite Hu|by rewrite Ht, He].
  - intros ->. congruence.
Qed.

Lemma loadTrack_is_active j u :
  tracks p !! j = Some u →
  is_active (loadTrack (JS.Int i) p) u = bool_decide (j = Z.to_nat i).
Proof.
  intros Hu. unfold is_active. rewrite loadTrack_document.
  rewrite marked_active;
    [|by apply (track_is_item (Z.to_nat i))|by apply (track_is_item j)].
  apply bool_decide_ext. by apply track_element_inj.
Qed.

Lemma loadTrack_tracks_ok : tracks_ok (loadTrack (JS.Int i) p).
Proof.
  unfold tracks_ok. by rewrite loadTrack_tracks, loadTrack_document, marked_track_items.
Qed.

Lemma loadTrack_progress_reset : progress_reset (loadTrack (JS.Int i) p).
Proof.
  unfold loadTrack.
  replace ((0 <=? i) && (i <? trackCount p)) with true by lia.
  rewrite Ht. unfold progress_reset. cbn.
  repeat split; try done.
  - intros [H _]%list_elem_of_filter. by apply H.
  - intros [H _]%list_elem_of_filter. by apply H.
Qed.
End LoadTrack.

Lemma loadTrack_preserves_tracks_ok index p :
  tracks_ok p → tracks_ok (loadTrack index p).
Proof.
  intros Hok. destruct index as [i|]; [|done].
  destruct (decide (0 ≤ i < trackCount p)) as [Hi|Hi].
  - destruct (lookup_track p i Hi) as [t Ht]. by eapply loadTrack_tracks_ok.
  - by rewrite loadTrack_out_of_range.
Qed.

Lemma audio_play_if_tracks_ok (b : bool) p :
  tracks_ok p → tracks_ok (if b then audio_play p else p).
Proof. by destruct b. Qed.

Lemma handle_tracks_ok e p : tracks_ok p → tracks_ok (handle e p).
Proof.
  intros Hp. destruct e; cbn [handle]; try done.
  - unfold togglePlayPause. by destruct (isPlaying p).
  - unfold playNext.
    by apply audio_play_if_tracks_ok, loadTrack_preserves_tracks_ok.
  - unfold playPrevious.
    by apply audio_play_if_tracks_ok, loadTrack_preserves_tracks_ok.
  - by apply loadTrack_preserves_tracks_ok.
  - unfold handleTrackEnd. destruct (isRepeating p); [done|].
    unfold playNext.
    by apply audio_play_if_tracks_ok, loadTrack_preserves_tracks_ok.
  - by apply loadTrack_preserves_tracks_ok.
Qed.

(** The playlist stays the list of the page's track items from the
    constructor on. *)
Lemma run_tracks_ok es p : tracks_ok p → tracks_ok (run es p).
Proof.
  revert p. induction es as [|e es IH]; intros p Hp; [done|].
  cbn. apply IH. by apply handle_tracks_ok.
Qed.

Lemma constructed_tracks_ok doc titleText barValue fillWidth fillClasses
    containerClasses timeText :
  tracks_ok (constructed doc titleText barValue fillWidth fillClasses
               containerClasses timeText).
Proof. apply loadTrack_preserves_tracks_ok, loadTracks_tracks_ok. Qed.

(** C5. Within the playlist, [loadTrack i] makes [i] the current index,
    leaves the active marker on the [i]-th track's item and on no other
    track's, so that exactly one track is marked, and puts the progress
    bar, the fill and the elapsed time back to zero with neither animation
    class set; the playlist itself is as before.  At an index outside the
    playlist, and at [NaN], it changes nothing. *)
Theorem loadTrack_marks_one (i : Z) (p : state) :
  tracks_ok p →
  (0 ≤ i < trackCount p →
   currentTrackIndex (loadTrack (JS.Int i) p) = i
   ∧ (∀ j u, tracks p !! j = Some u →
             is_active (loadTrack (JS.Int i) p) u = bool_decide (j = Z.to_nat i))
   ∧ length (filter (λ u, is_active (loadTrack (JS.Int i) p) u)
               (tracks (loadTrack (JS.Int i) p))) = 1%nat
   ∧ progress_reset (loadTrack (JS.Int i) p)
   ∧ tracks (loadTrack (JS.Int i) p) = tracks p
   ∧ tracks_ok (loadTrack (JS.Int i) p))
  ∧ (¬ (0 ≤ i < trackCount p) → loadTrack (JS.Int i) p = p)
  ∧ loadTrack JS.NaN p = p.
Proof.
  intros Hok. split; [|split; [apply loadTrack_out_of_range|done]].
  intros Hi. destruct (lookup_track p i Hi) as [t Ht].
  split; [by apply loadTrack_currentTrackIndex|].
  split; [intros j u; by apply (loadTrack_is_active p i t)|].
  split; [|split; [by apply (loadTrack_progress_reset p i t)|]].
  - rewrite loadTrack_tracks. apply (filter_one _ _ (Z.to_nat i)).
    + unfold trackCount in Hi. lia.
    + intros j u. by apply (loadTrack_is_active p i t).
  - split; [apply loadTrack_tracks|by apply (loadTrack_tracks_ok p i t)].
Qed.

Lemma loadTrack_marks_one_witness :
  is_active (loadTrack (JS.Int 2) player_ABC) (mkTrack "c.mp3" "C" 3) = true
  ∧ is_active (loadTrack (JS.Int 2) player_ABC) (mkTrack "a.mp3" "A" 0) = false
  ∧ loadTrack (JS.Int 3) player_ABC = player_ABC.
Proof.
  pose proof (loadTrack_marks_one 2 player_ABC) as [Hin _];
    [vm_compute; reflexivity|].
  pose proof (loadTrack_marks_one 3 player_ABC) as (_ & Hout & _);
    [vm_compute; reflexivity|].
  destruct Hin as (_ & Hact & _).
  { vm_compute. split; [discriminate|reflexivity]. }
  split; [apply (Hact 2%nat); vm_compute; reflexivity|].
  split; [apply (Hact 0%nat); vm_compute; reflexivity|].
  apply Hout. vm_compute. intros [_ H]. discriminate H.
Defined.

(** *** Time formatting *)

Lemma padStart_two_digits n :
  0 ≤ n < 60 → JS.padStart 2 "0" (JS.toString n) = two_digits n.
Proof.
  intros Hn. rewrite <- (Z2Nat.id n) by lia.
  assert (Z.to_nat n < 60)%nat as Hk by lia.
  clear Hn. generalize dependent (Z.to_nat n). clear n. intros k Hk.
  do 60 (destruct k as [|k]; [vm_compute; reflexivity|]). lia.
Qed.

Lemma whole_minutes_bounds (s : Q) :
  (0 <= s - 60 * inject_Z (Qfloor (s / 60)))%Q
  ∧ (s - 60 * inject_Z (Qfloor (s / 60)) < 60)%Q.
Proof.
  pose proof (Qfloor_le (s / 60)) as Hlo.
  pose proof (Qlt_floor (s / 60)) as Hhi.
  rewrite inject_Z_plus in Hhi.
  set (m := inject_Z (Qfloor (s / 60))) in *.
  unfold Qdiv in Hlo, Hhi. change (/ 60)%Q with (1 # 60)%Q in Hlo, Hhi.
  change (inject_Z 1) with 1%Q in Hhi.
  split; lra.
Qed.

Lemma seconds_left_bounds (s : Q) :
  0 ≤ Qfloor (s - 60 * inject_Z (Qfloor (s / 60))) < 60.
Proof.
  destruct (whole_minutes_bounds s) as [Hlo Hhi]. split.
  - change 0 with (Qfloor 0). by apply Qfloor_resp_le.
  - rewrite Zlt_Qlt. eapply Qle_lt_trans; [apply Qfloor_le|exact Hhi].
Qed.

Lemma Qrem_nonneg (s : Q) :
  (0 <= s)%Q →
  JS.Qrem s 60 = (s - 60 * inject_Z (Qfloor (s / 60)))%Q.
Proof.
  intros Hs. unfold JS.Qrem, JS.Qtrunc.
  assert (Qle_bool 0 (s / 60) = true) as ->; [|done].
  apply Qle_bool_iff. unfold Qdiv. change (/ 60)%Q with (1 # 60)%Q. lra.
Qed.

Lemma Number_toString_small z :
  Z.abs z ≤ 2 ^ 53 → JS.Number_toString z = JS.toString z.
Proof.
  intros H. unfold JS.Number_toString.
  destruct (Z.leb_spec (Z.abs z) (2 ^ 53)); [done|lia].
Qed.

Lemma formatTime_finite (s : Q) :
  (0 <= s)%Q →
  formatTime (JS.Num s)
  = JS.Number_toString (Qfloor (JS.round64 (s / 60))) +:+ ":"
    +:+ two_digits (Qfloor (s - 60 * inject_Z (Qfloor (s / 60)))).
Proof.
  intros Hs. unfold formatTime.
  cbn [JS.divide JS.remainder JS.Math_floor JS.floored_toString].
  rewrite Qrem_nonneg by done.
  pose proof (seconds_left_bounds s) as Hb.
  rewrite (Number_toString_small (Qfloor (s - 60 * inject_Z (Qfloor (s / 60)))))
    by lia.
  by rewrite padStart_two_digits.
Qed.

Lemma whole_minutes_small (s : Q) :
  (0 <= s)%Q → (s < inject_Z (2 ^ 53))%Q → 0 ≤ Qfloor (s / 60) < 2 ^ 53.
Proof.
  intros H0 H53. split.
  - change 0 with (Qfloor 0). apply Qfloor_resp_le.
    unfold Qdiv. change (/ 60)%Q with (1 # 60)%Q. lra.
  - rewrite Zlt_Qlt. eapply Qle_lt_trans; [apply Qfloor_le|].
    unfold Qdiv. change (/ 60)%Q with (1 # 60)%Q. lra.
Qed.

Lemma formatTime_exact (s : Q) :
  JS.is_double s = true → (0 <= s)%Q → (s < inject_Z (2 ^ 53))%Q →
  formatTime (JS.Num s) = formatTime_spec s.
Proof.
  intros Hd H0 H53. rewrite formatTime_finite by done. unfold formatTime_spec.
  rewrite DoubleFacts.divide_60_floor by done.
  pose proof (whole_minutes_small s H0 H53).
  by rewrite Number_toString_small by lia.
Qed.

(** C4, as the code has it.  For a finite number of seconds that is not
    negative and below 2^53, [formatTime] gives the whole minutes
    floor(seconds/60) as a plain numeral, a colon, and the whole seconds
    left over, floor(seconds mod 60), as two digits; 0 gives 0:00, 65
    gives 1:05 and 3599 gives 59:59.  For every finite number that is not
    negative the seconds are those, between 0 and 59, and the minutes are
    the floor of the quotient as the division of doubles rounds it,
    printed as JavaScript prints a number; and [Infinity] gives
    Infinity:NaN. *)
Theorem formatTime_minutes_seconds (seconds : Q) :
  JS.is_double seconds = true → (0 <= seconds)%Q →
  ((seconds < inject_Z (2 ^ 53))%Q →
   formatTime (JS.Num seconds)
   = JS.toString (Qfloor (seconds / 60)) +:+ ":"
     +:+ two_digits (Qfloor (seconds - 60 * inject_Z (Qfloor (seconds / 60)))))
  ∧ formatTime (JS.Num seconds)
    = JS.Number_toString (Qfloor (JS.round64 (seconds / 60))) +:+ ":"
      +:+ two_digits (Qfloor (seconds - 60 * inject_Z (Qfloor (seconds / 60))))
  ∧ 0 ≤ Qfloor (seconds - 60 * inject_Z (Qfloor (seconds / 60))) < 60
  ∧ formatTime (JS.Num 0) = "0:00"%string
  ∧ formatTime (JS.Num 65) = "1:05"%string
  ∧ formatTime (JS.Num 3599) = "59:59"%string
  ∧ formatTime JS.Inf = "Infinity:NaN"%string.
Proof.
  intros Hd Hs. split; [by apply formatTime_exact|].
  split; [by apply formatTime_finite|].
  split; [apply seconds_left_bounds|]. by vm_compute.
Qed.

Lemma formatTime_minutes_seconds_witness :
  formatTime (JS.Num (527 # 4)) = "2:11"%string.
Proof.
  destruct (formatTime_minutes_seconds (527 # 4)) as [H _].
  - vm_compute. reflexivity.
  - vm_compute. discriminate.
  - rewrite H; vm_compute; [reflexivity|reflexivity].
Defined.

(** C4, as the specification words it for every number that is neither
    negative nor [NaN], fails in two places.  The double 60 * 2^50 + 56
    is 2^50 minutes and 56 seconds, but its quotient by 60 rounds up to
    2^50 + 1 and that is the number of minutes [formatTime] prints; and
    [Infinity], the duration of a stream without end, has no minutes and
    seconds at all: the text is Infinity:NaN. *)
Lemma formatTime_beyond_2_53 :
  JS.is_double (inject_Z (60 * 2 ^ 50 + 56)) = true
  ∧ Qfloor (inject_Z (60 * 2 ^ 50 + 56) / 60) = 1125899906842624
  ∧ formatTime_spec (inject_Z (60 * 2 ^ 50 + 56)) = "1125899906842624:56"%string
  ∧ formatTime (JS.Num (inject_Z (60 * 2 ^ 50 + 56))) = "1125899906842625:56"%string
  ∧ formatTime JS.Inf = "Infinity:NaN"%string.
Proof. by vm_compute. Qed.

End PlayerFacts.

(** ** Properties of the todo list *)

Module TodoFacts.
Import Todo.

Lemma strict_eq_Int n m : JS.strict_eq (JS.Int n) m ↔ n = m.
Proof. cbn. rewrite Is_true_true. apply Z.eqb_eq. Qed.

Lemma render_fold l s :
  foldl (λ s todo, set_todoList (todoList s ++ [renderItem todo]) s) s l
  = set_todoList (todoList s ++ (renderItem <$> l)) s.
Proof.
  revert s. induction l as [|todo l IH]; intros s.
  - cbn. rewrite app_nil_r. by destruct s.
  - cbn [foldl]. rewrite IH. cbn. by rewrite <- app_assoc.
Qed.

Lemma renderTodos_eq s : renderTodos s = set_todoList (renderItem <$> todos s) s.
Proof. unfold renderTodos. by rewrite render_fold. Qed.

(** After [renderTodos] and [updateTodoCount] the page shows the list. *)
Lemma rendered_after s : rendered (updateTodoCount (renderTodos s)).
Proof. rewrite renderTodos_eq. by split. Qed.

Lemma rendered_fixed s : rendered s → updateTodoCount (renderTodos s) = s.
Proof.
  intros [Hl Hc]. rewrite renderTodos_eq. destruct s as [l n v items c].
  cbn in *. unfold updateTodoCount, remainingCount. cbn. by rewrite <- Hl, <- Hc.
Qed.

Lemma addTodo_blank now s :
  JS.trim (todoInput s) = [] → addTodo now s = s.
Proof. intros H. unfold addTodo. by rewrite decide_True. Qed.

Lemma addTodo_eq now s :
  JS.trim (todoInput s) ≠ [] →
  addTodo now s
  = updateTodoCount
      (renderTodos
         (mkState (todos s ++ [mkTodo (todoIdCounter s) (JS.trim (todoInput s)) false now])
            (todoIdCounter s + 1) [] (todoList s) (todoCount s))).
Proof. intros H. unfold addTodo. by rewrite decide_False. Qed.

Lemma StronglySorted_lt_NoDup (l : list Z) : StronglySorted Z.lt l → NoDup l.
Proof.
  induction 1 as [|x l _ IH Hx]; constructor; [|done].
  intros Hin. rewrite Forall_forall in Hx. specialize (Hx x Hin). lia.
Qed.

Lemma ids_ok_NoDup s : ids_ok s → NoDup (id <$> todos s).
Proof. intros [H _]. by apply StronglySorted_lt_NoDup. Qed.

Lemma addTodo_ids_ok now s : ids_ok s → ids_ok (addTodo now s).
Proof.
  intros [Hs Hb]. destruct (decide (JS.trim (todoInput s) = [])) as [E|E].
  { by rewrite addTodo_blank. }
  rewrite addTodo_eq, renderTodos_eq by done. split; cbn.
  - rewrite fmap_app. apply StronglySorted_app_2; [|done|repeat constructor].
    intros x1 x2 H1 ->%list_elem_of_singleton.
    apply list_elem_of_fmap in H1 as (t & -> & Ht).
    rewrite Forall_forall in Hb. specialize (Hb t Ht). cbn. lia.
  - apply Forall_app. split.
    + eapply Forall_impl; [exact Hb|]. cbn. intros t Ht. lia.
    + constructor; [|constructor]. cbn. lia.
Qed.

Lemma insert_toggleCompleted_ids (l : list Todo) (k : nat) t :
  l !! k = Some t → id <$> <[k := toggleCompleted t]> l = id <$> l.
Proof.
  intros Hk. rewrite list_fmap_insert. apply list_insert_id.
  by rewrite list_lookup_fmap, Hk.
Qed.

Lemma toggleTodo_absent id' s :
  Forall (λ t, ¬ JS.strict_eq id' (id t)) (todos s) → toggleTodo id' s = s.
Proof.
  intros H. unfold toggleTodo.
  by rewrite (proj2 (list_find_None _ (todos s)) H).
Qed.

Lemma toggleTodo_found id' s k t :
  list_find (λ t, JS.strict_eq id' (id t)) (todos s) = Some (k, t) →
  toggleTodo id' s
  = updateTodoCount
      (renderTodos (set_todos (<[k := toggleCompleted t]> (todos s)) s)).
Proof. intros H. unfold toggleTodo. by rewrite H. Qed.

Lemma toggleTodo_ids id' s : id <$> todos (toggleTodo id' s) = id <$> todos s.
Proof.
  unfold toggleTodo.
  destruct (list_find _ _) as [[k t]|] eqn:E; [|done].
  rewrite renderTodos_eq. cbn. apply insert_toggleCompleted_ids.
  by apply list_find_Some in E as [? _].
Qed.

Lemma toggleTodo_todoIdCounter id' s :
  todoIdCounter (toggleTodo id' s) = todoIdCounter s.
Proof.
  unfold toggleTodo.
  destruct (list_find _ _) as [[k t]|] eqn:E; [|done].
  by rewrite renderTodos_eq.
Qed.

Lemma toggleTodo_ids_ok id' s : ids_ok s → ids_ok (toggleTodo id' s).
Proof.
  intros [Hs Hb]. split.
  - by rewrite toggleTodo_ids.
  - rewrite toggleTodo_todoIdCounter.
    apply (Forall_fmap id (λ x, x < todoIdCounter s)).
    rewrite toggleTodo_ids.
    by apply (Forall_fmap id (λ x, x < todoIdCounter s)).
Qed.

Lemma deleteTodo_todos id' s :
  todos (deleteTodo id' s)
  = filter (λ t, negb (JS.strict_eq id' (id t))) (todos s).
Proof. unfold deleteTodo. by rewrite renderTodos_eq. Qed.

Lemma deleteTodo_todoIdCounter id' s :
  todoIdCounter (deleteTodo id' s) = todoIdCounter s.
Proof. unfold deleteTodo. by rewrite renderTodos_eq. Qed.

Lemma StronglySorted_filter_ids (P : Todo → Prop) `{∀ t, Decision (P t)} l :
  StronglySorted Z.lt (id <$> l) → StronglySorted Z.lt (id <$> filter P l).
Proof.
  induction l as [|t l IH]; [done|]. cbn [fmap list_fmap].
  intros [Hall Hs]%StronglySorted_cons.
  rewrite filter_cons. destruct (decide (P t)); [|by apply IH].
  cbn [fmap list_fmap]. apply StronglySorted_cons. split; [|by apply IH].
  rewrite Forall_forall in Hall. apply Forall_forall.
  intros x (u & -> & Hu)%list_elem_of_fmap.
  apply list_elem_of_filter in Hu as [_ Hu].
  apply Hall, list_elem_of_fmap. by exists u.
Qed.

Lemma Forall_filter_keep {A} (P Q : A → Prop) `{∀ x, Decision (P x)} l :
  Forall Q l → Forall Q (filter P l).
Proof.
  rewrite !Forall_forall. intros HQ x [_ Hx]%list_elem_of_filter. by apply HQ.
Qed.

Lemma deleteTodo_ids_ok id' s : ids_ok s → ids_ok (deleteTodo id' s).
Proof.
  intros [Hs Hb]. split.
  - rewrite deleteTodo_todos. by apply StronglySorted_filter_ids.
  - rewrite deleteTodo_todos, deleteTodo_todoIdCounter.
    by apply Forall_filter_keep.
Qed.

Lemma handle_ids_ok e s : ids_ok s → ids_ok (handle e s).
Proof.
  intros H. destruct e as [v|now|[n|n|]]; cbn [handle handleTodoClick]; try done.
  - by apply addTodo_ids_ok.
  - by apply toggleTodo_ids_ok.
  - by apply deleteTodo_ids_ok.
Qed.

Lemma handle_todoIdCounter e s : todoIdCounter s ≤ todoIdCounter (handle e s).
Proof.
  destruct e as [v|now|[n|n|]]; cbn [handle handleTodoClick]; try done.
  - unfold addTodo. destruct (decide _); [done|].
    rewrite renderTodos_eq. cbn. lia.
  - by rewrite toggleTodo_todoIdCounter.
  - by rewrite deleteTodo_todoIdCounter.
Qed.

(** Whatever is typed, added, toggled and deleted, the ids stay in order
    below the counter, and the counter never goes back: an id once given
    is not given again. *)
Lemma run_ids_ok es s :
  ids_ok s → ids_ok (run es s) ∧ todoIdCounter s ≤ todoIdCounter (run es s).
Proof.
  revert s. induction es as [|e es IH]; intros s H; [done|].
  cbn. destruct (IH (handle e s)) as [H1 H2]; [by apply handle_ids_ok|].
  split; [done|]. pose proof (handle_todoIdCounter e s). unfold run in H2. lia.
Qed.

Lemma initial_ids_ok v items c : ids_ok (initial v items c).
Proof. split; cbn; constructor. Qed.

(** C6. [addTodo] trims the text of the input.  When nothing is left it
    changes nothing.  Otherwise it puts one entry at the end of the list,
    with the counter's value as id, the trimmed text, and not completed;
    the counter goes up by one, the list is one longer, one more entry
    remains to be done, the input is cleared and the page shows the list.
    The new id is above every id in the list, ids stay distinct and
    increasing along the list, and whatever happens next the counter
    never goes back, so no id is given twice. *)
Theorem addTodo_appends (now : Z) (s : state) :
  ids_ok s →
  (JS.trim (todoInput s) = [] → addTodo now s = s)
  ∧ (JS.trim (todoInput s) ≠ [] →
     todos (addTodo now s)
     = todos s ++ [mkTodo (todoIdCounter s) (JS.trim (todoInput s)) false now]
     ∧ todoIdCounter (addTodo now s) = todoIdCounter s + 1
     ∧ length (todos (addTodo now s)) = S (length (todos s))
     ∧ remainingCount (addTodo now s) = S (remainingCount s)
     ∧ todoInput (addTodo now s) = []
     ∧ rendered (addTodo now s))
  ∧ Forall (λ t, id t < todoIdCounter s) (todos s)
  ∧ ids_ok (addTodo now s)
  ∧ NoDup (id <$> todos (addTodo now s))
  ∧ (∀ es, ids_ok (run es (addTodo now s))
           ∧ todoIdCounter s ≤ todoIdCounter (run es (addTodo now s))).
Proof.
  intros Hok. split; [apply addTodo_blank|]. split; [|split; [apply Hok|]].
  - intros Hne. rewrite addTodo_eq by done.
    split; [by rewrite renderTodos_eq|]. split; [by rewrite renderTodos_eq|].
    split; [rewrite renderTodos_eq; cbn; rewrite length_app; cbn; lia|].
    split; [|split; [by rewrite renderTodos_eq|apply rendered_after]].
    rewrite renderTodos_eq. destruct s as [l n v items c].
    unfold updateTodoCount, remainingCount. cbn.
    rewrite filter_app, length_app, filter_cons_True by exact I.
    cbn. lia.
  - pose proof (addTodo_ids_ok now s Hok) as Hok'.
    split; [done|]. split; [by apply ids_ok_NoDup|].
    intros es. destruct (run_ids_ok es _ Hok') as [H1 H2]. split; [done|].
    pose proof (handle_todoIdCounter (Add now) s) as H3. cbn in H3. lia.
Qed.

Lemma addTodo_appends_witness :
  todos (addTodo 1000 (set_todoInput (JS.units "  Study ") (initial [] [] "0")))
  = [mkTodo 0 (JS.units "Study") false 1000]
  ∧ addTodo 1000 (set_todoInput [160; 32; 9]%N (initial [] [] "0"))
    = set_todoInput [160; 32; 9]%N (initial [] [] "0").
Proof.
  pose proof (addTodo_appends 1000 (set_todoInput (JS.units "  Study ") (initial [] [] "0")))
    as (_ & (Hadd & _) & _).
  - split; cbn; constructor.
  - vm_compute. discriminate.
  - pose proof (addTodo_appends 1000 (set_todoInput [160; 32; 9]%N (initial [] [] "0")))
      as (Hblank & _).
    + split; cbn; constructor.
    + split; [rewrite Hadd; vm_compute; reflexivity|].
      apply Hblank. vm_compute. reflexivity.
Defined.

(** *** Finding an entry by its id *)

Lemma filter_absent (n : JS.number) (l : list Todo) :
  Forall (λ t, ¬ JS.strict_eq n (id t)) l →
  filter (λ t, negb (JS.strict_eq n (id t))) l = l.
Proof.
  induction 1 as [|t l Ht _ IH]; [done|].
  rewrite filter_cons_True by (by apply negb_prop_intro).
  by rewrite IH.
Qed.

Lemma absent_Int (n : Z) (l : list Todo) :
  Forall (λ t, id t ≠ n) l → Forall (λ t, ¬ JS.strict_eq (JS.Int n) (id t)) l.
Proof.
  intros H. eapply Forall_impl; [exact H|].
  intros t Ht Hm%strict_eq_Int. by apply Ht.
Qed.

Lemma absent_NaN (l : list Todo) : Forall (λ t, ¬ JS.strict_eq JS.NaN (id t)) l.
Proof. apply Forall_forall. intros t _ H. exact H. Qed.

Lemma find_first (n : Z) (l : list Todo) (k : nat) (t : Todo) :
  l !! k = Some t → id t = n →
  (∀ j u, (j < k)%nat → l !! j = Some u → id u ≠ n) →
  list_find (λ t, JS.strict_eq (JS.Int n) (id t)) l = Some (k, t).
Proof.
  intros Hk Hn Hfirst. apply list_find_Some. split; [done|].
  split; [by apply strict_eq_Int|].
  intros j u Hu Hj Hm%strict_eq_Int. by apply (Hfirst j u).
Qed.

Lemma unique_is_first (n : Z) (l : list Todo) (k : nat) (t : Todo) :
  NoDup (id <$> l) → l !! k = Some t → id t = n →
  ∀ j u, (j < k)%nat → l !! j = Some u → id u ≠ n.
Proof.
  intros Hnd Hk Hn j u Hj Hu Hm.
  assert (j = k); [|lia].
  apply (NoDup_lookup _ j k n Hnd); rewrite list_lookup_fmap.
  - by rewrite Hu, <- Hm.
  - by rewrite Hk, <- Hn.
Qed.

Lemma filter_present (n : Z) (l : list Todo) (k : nat) (t : Todo) :
  NoDup (id <$> l) → l !! k = Some t → id t = n →
  filter (λ t, negb (JS.strict_eq (JS.Int n) (id t))) l = delete k l.
Proof.
  revert k. induction l as [|x l IH]; intros k Hnd Hk Hn; [done|].
  cbn [fmap list_fmap] in Hnd. apply NoDup_cons in Hnd as [Hx Hnd].
  destruct k as [|k]; cbn in Hk.
  - injection Hk as ->.
    rewrite filter_cons_False
      by (intros H%negb_prop_elim; apply H; by apply strict_eq_Int).
    change (delete 0%nat (t :: l)) with l.
    apply filter_absent, absent_Int, Forall_forall.
    intros u Hu Hm. apply Hx. rewrite Hn, <- Hm.
    apply list_elem_of_fmap. by exists u.
  - rewrite filter_cons_True.
    + change (delete (S k) (x :: l)) with (x :: delete k l).
      f_equal. by apply IH.
    + apply negb_prop_intro. intros Hm%strict_eq_Int. apply Hx.
      rewrite <- Hm, <- Hn. apply list_elem_of_fmap. exists t.
      split; [done|]. by apply list_elem_of_lookup_2 in Hk.
Qed.

(** C8. With distinct ids, [toggleTodo] puts in the place of the entry
    that has the id the same entry with its completed flag negated (same
    id, text and timestamp), and [deleteTodo] takes that entry out of the
    list.  For an id that no entry has, and for [NaN], [toggleTodo]
    changes nothing and [deleteTodo] leaves the list as it is; it changes
    nothing at all when the page already shows the list. *)
Theorem toggle_delete_by_id (n : Z) (s : state) :
  NoDup (id <$> todos s) →
  (∀ k t, todos s !! k = Some t → id t = n →
          todos (toggleTodo (JS.Int n) s)
          = <[k := mkTodo (id t) (text t) (negb (completed t)) (timestamp t)]>
              (todos s)
          ∧ todos (deleteTodo (JS.Int n) s) = delete k (todos s))
  ∧ (Forall (λ t, id t ≠ n) (todos s) →
     toggleTodo (JS.Int n) s = s
     ∧ todos (deleteTodo (JS.Int n) s) = todos s
     ∧ (rendered s → deleteTodo (JS.Int n) s = s))
  ∧ toggleTodo JS.NaN s = s
  ∧ todos (deleteTodo JS.NaN s) = todos s
  ∧ (rendered s → deleteTodo JS.NaN s = s).
Proof.
  intros Hnd. split; [|split; [|split; [|split]]].
  - intros k t Hk Hn. split.
    + rewrite (toggleTodo_found _ s k t).
      * by rewrite renderTodos_eq.
      * apply find_first; [done|done|]. by apply unique_is_first with t.
    + rewrite deleteTodo_todos. by apply filter_present with t.
  - intros Habs. apply absent_Int in Habs.
    split; [by apply toggleTodo_absent|].
    split; [rewrite deleteTodo_todos; by apply filter_absent|].
    intros Hr. unfold deleteTodo. cbv zeta. rewrite filter_absent by done.
    replace (set_todos (todos s) s) with s by (by destruct s).
    by apply rendered_fixed.
  - apply toggleTodo_absent, absent_NaN.
  - rewrite deleteTodo_todos. apply filter_absent, absent_NaN.
  - intros Hr. unfold deleteTodo. cbv zeta.
    rewrite filter_absent by apply absent_NaN.
    replace (set_todos (todos s) s) with s by (by destruct s).
    by apply rendered_fixed.
Qed.

Lemma toggle_delete_by_id_witness :
  todos (toggleTodo (JS.Int 1) list_Study_Read)
  = [mkTodo 0 (JS.units "Study") false 1000; mkTodo 1 (JS.units "Read") true 2000]
  ∧ todos (deleteTodo (JS.Int 0) list_Study_Read) = [mkTodo 1 (JS.units "Read") false 2000].
Proof.
  assert (NoDup (id <$> todos list_Study_Read)) as Hnd.
  { apply ids_ok_NoDup, run_ids_ok, initial_ids_ok. }
  pose proof (toggle_delete_by_id 1 list_Study_Read Hnd) as (H1 & _).
  pose proof (toggle_delete_by_id 0 list_Study_Read Hnd) as (H0 & _).
  destruct (H1 1%nat (mkTodo 1 (JS.units "Read") false 2000) eq_refl eq_refl) as [Ht _].
  destruct (H0 0%nat (mkTodo 0 (JS.units "Study") false 1000) eq_refl eq_refl) as [_ Hd].
  split; [rewrite Ht|rewrite Hd]; vm_compute; reflexivity.
Defined.

(** C10. [toggleTodo] on an id that an entry has changes the completed
    flag of the first such entry and nothing else in the list: that entry
    keeps its id, text and timestamp, every other position holds the entry
    it held, and the list has the same length, with the same ids, texts and
    timestamps in the same order; counter and input are untouched. *)
Theorem toggleTodo_frame (n : Z) (s : state) (k : nat) (t : Todo) :
  todos s !! k = Some t → id t = n →
  (∀ j u, (j < k)%nat → todos s !! j = Some u → id u ≠ n) →
  todos (toggleTodo (JS.Int n) s) !! k
  = Some (mkTodo (id t) (text t) (negb (completed t)) (timestamp t))
  ∧ (∀ j, j ≠ k → todos (toggleTodo (JS.Int n) s) !! j = todos s !! j)
  ∧ length (todos (toggleTodo (JS.Int n) s)) = length (todos s)
  ∧ id <$> todos (toggleTodo (JS.Int n) s) = id <$> todos s
  ∧ text <$> todos (toggleTodo (JS.Int n) s) = text <$> todos s
  ∧ timestamp <$> todos (toggleTodo (JS.Int n) s) = timestamp <$> todos s
  ∧ todoIdCounter (toggleTodo (JS.Int n) s) = todoIdCounter s
  ∧ todoInput (toggleTodo (JS.Int n) s) = todoInput s.
Proof.
  intros Hk Hn Hfirst.
  rewrite (toggleTodo_found _ s k t) by (by apply find_first).
  rewrite renderTodos_eq. cbn.
  assert (k < length (todos s))%nat as Hlt by (by apply lookup_lt_Some in Hk).
  split; [by apply list_lookup_insert_eq|].
  split; [intros j Hj; by apply list_lookup_insert_ne|].
  split; [apply length_insert|].
  split; [by apply insert_toggleCompleted_ids|].
  split; [|split; [|done]].
  - rewrite list_fmap_insert. apply list_insert_id.
    by rewrite list_lookup_fmap, Hk.
  - rewrite list_fmap_insert. apply list_insert_id.
    by rewrite list_lookup_fmap, Hk.
Qed.

Lemma toggleTodo_frame_witness :
  todos (toggleTodo (JS.Int 0) list_Study_Read) !! 0%nat
  = Some (mkTodo 0 (JS.units "Study") true 1000)
  ∧ todos (toggleTodo (JS.Int 0) list_Study_Read) !! 1%nat
    = Some (mkTodo 1 (JS.units "Read") false 2000).
Proof.
  pose proof (toggleTodo_frame 0 list_Study_Read 0 (mkTodo 0 (JS.units "Study") false 1000)
                eq_refl eq_refl) as (H0 & H1 & _).
  - intros j u Hj. lia.
  - split; [exact H0|]. by rewrite H1.
Defined.

End TodoFacts.

(** ** The timer over time *)

Module TimerRuns.
Import Timer TimerView TimerFacts.

Lemma padStart_two_digits_100 n :
  0 ≤ n < 100 → JS.padStart 2 "0" (JS.toString n) = Player.two_digits n.
Proof.
  intros Hn. rewrite <- (Z2Nat.id n) by lia.
  assert (Z.to_nat n < 100)%nat as Hk by lia.
  clear Hn. generalize dependent (Z.to_nat n). clear n. intros k Hk.
  do 100 (destruct k as [|k]; [vm_compute; reflexivity|]). lia.
Qed.

Lemma updateTimerDisplay_clock s :
  0 ≤ timerMinutes s < 100 → 0 ≤ timerSeconds s < 100 →
  timerDisplay (updateTimerDisplay s) = clock (timerMinutes s) (timerSeconds s).
Proof.
  intros Hm Hs. unfold updateTimerDisplay, clock. cbn.
  by rewrite !padStart_two_digits_100.
Qed.

(** A tick with time left takes exactly one second off and leaves the
    timer as it runs. *)
Lemma tick_counts_down s :
  time_ok s → 0 < totalSeconds s →
  totalSeconds (tick s) = totalSeconds s - 1
  ∧ time_ok (tick s)
  ∧ timerRunning (tick s) = timerRunning s
  ∧ timerInterval (tick s) = timerInterval s
  ∧ intervals (tick s) = intervals s.
Proof.
  intros [Hm Hs] Ht. unfold totalSeconds, time_ok in *. unfold tick.
  destruct (Z.eqb_spec (timerSeconds s) 0) as [E|E];
    [destruct (Z.eqb_spec (timerMinutes s) 0) as [E'|E']|]; cbn; try lia.
  - repeat split; lia.
  - repeat split; lia.
Qed.

(** X1. Counting down is exact: from a well-formed time, [n] ticks with
    [n] at most the seconds left take exactly [n] seconds off, keeping the
    time well-formed and the timer running as it was; when the seconds
    left are used up the time reads 0:00, and the next tick completes the
    session. *)
Theorem ticks_count_down (n : nat) (s : state) :
  time_ok s → Z.of_nat n ≤ totalSeconds s →
  totalSeconds (Nat.iter n tick s) = totalSeconds s - Z.of_nat n
  ∧ time_ok (Nat.iter n tick s)
  ∧ timerRunning (Nat.iter n tick s) = timerRunning s
  ∧ intervals (Nat.iter n tick s) = intervals s
  ∧ (Z.of_nat n = totalSeconds s →
     remaining (Nat.iter n tick s) = (0, 0)
     ∧ Completed (tick (Nat.iter n tick s))).
Proof.
  intros Hok. induction n as [|n IH]; intros Hn.
  - cbn [Nat.iter nat_rect]. split; [lia|]. split; [done|].
    split; [done|]. split; [done|]. intros H0.
    assert (remaining s = (0, 0)) as Hr.
    { destruct Hok as [Hm Hs]. unfold totalSeconds in H0. unfold remaining.
      f_equal; lia. }
    split; [done|]. rewrite tick_at_zero by done. apply timerComplete_Completed.
  - change (Nat.iter (S n) tick s) with (tick (Nat.iter n tick s)).
    destruct IH as (IH1 & IH2 & IH3 & IH4 & _); [lia|].
    destruct (tick_counts_down (Nat.iter n tick s) IH2) as (T1 & T2 & T3 & _ & T5);
      [lia|].
    split; [lia|]. split; [done|]. split; [congruence|]. split; [congruence|].
    intros H0.
    assert (remaining (tick (Nat.iter n tick s)) = (0, 0)) as Hr.
    { destruct T2 as [Hm Hs]. unfold totalSeconds in T1, IH1. unfold remaining.
      unfold totalSeconds in H0. f_equal; lia. }
    split; [done|]. rewrite (tick_at_zero _ Hr). apply timerComplete_Completed.
Qed.

Lemma ticks_count_down_witness :
  totalSeconds (Nat.iter 61 tick (setTimer 15 (initial "Start" false))) = 839.
Proof.
  destruct (ticks_count_down 61 (setTimer 15 (initial "Start" false)))
    as (Ht & _).
  - unfold time_ok. cbn. lia.
  - vm_compute. discriminate.
  - rewrite Ht. reflexivity.
Defined.

Lemma startTimer_remaining s : remaining (startTimer s) = remaining s.
Proof. unfold startTimer. by destruct (_ && _). Qed.

Lemma startTimer_display s : timerDisplay (startTimer s) = timerDisplay s.
Proof. unfold startTimer. by destruct (_ && _). Qed.

Lemma within_hour_remaining s s' :
  remaining s' = remaining s → within_hour s → within_hour s'.
Proof.
  unfold remaining, within_hour, totalSeconds. intros H. by injection H as -> ->.
Qed.

Lemma display_ok_same s s' :
  remaining s' = remaining s → timerDisplay s' = timerDisplay s →
  display_ok s → display_ok s'.
Proof.
  unfold display_ok. intros Hr Hd. rewrite Hd, Hr.
  unfold remaining in Hr. by injection Hr as -> ->.
Qed.

Lemma setTimer_within_hour m s : 0 ≤ m ≤ 60 → within_hour (setTimer m s).
Proof. intros Hm. unfold within_hour, totalSeconds. cbn. lia. Qed.

Lemma setTimer_display m s :
  0 ≤ m < 100 → timerDisplay (setTimer m s) = clock m 0.
Proof.
  intros Hm. unfold setTimer. cbv zeta.
  rewrite updateTimerDisplay_clock; cbn; by try lia.
Qed.

Lemma setTimer_display_ok m s : 0 ≤ m < 100 → display_ok (setTimer m s).
Proof. intros Hm. left. by rewrite setTimer_display. Qed.

Lemma tick_within_hour s : within_hour s → within_hour (tick s).
Proof.
  intros (Hm & Hs & Ht). pose proof (tick_remaining s) as Hr.
  unfold within_hour, totalSeconds in *. unfold remaining in Hr.
  destruct (Z.eqb_spec (timerSeconds s) 0);
    [destruct (Z.eqb_spec (timerMinutes s) 0)|];
    inversion Hr; lia.
Qed.

Lemma tick_display_ok s : within_hour s → display_ok (tick s).
Proof.
  intros (Hm & Hs & Ht). unfold totalSeconds in Ht. unfold tick.
  destruct (Z.eqb_spec (timerSeconds s) 0) as [E|E];
    [destruct (Z.eqb_spec (timerMinutes s) 0) as [E'|E']|].
  - right. split; [done|]. rewrite timerComplete_remaining.
    unfold remaining. by rewrite E, E'.
  - left. cbv zeta. rewrite updateTimerDisplay_clock; cbn; by try lia.
  - left. cbv zeta. rewrite updateTimerDisplay_clock; cbn; by try lia.
Qed.

Lemma preset_minutes_range p : 0 ≤ preset_minutes p ≤ 60.
Proof. destruct p; cbn; lia. Qed.

Lemma handle_view_ok e s :
  within_hour s ∧ display_ok s → within_hour (handle e s) ∧ display_ok (handle e s).
Proof.
  intros [Hw Hd]. destruct e as [| | |p|h|h]; cbn [handle].
  - split; [apply (within_hour_remaining s); [apply startTimer_remaining|done]|].
    apply (display_ok_same s); [apply startTimer_remaining|apply startTimer_display|done].
  - split; [apply (within_hour_remaining s); [apply pauseTimer_remaining|done]|].
    apply (display_ok_same s); [apply pauseTimer_remaining|apply pauseTimer_display|done].
  - split; [by apply setTimer_within_hour|by apply setTimer_display_ok].
  - pose proof (preset_minutes_range p).
    split; [by apply setTimer_within_hour|apply setTimer_display_ok; lia].
  - unfold interval_fires. destruct (decide _); [|done].
    split; [by apply tick_within_hour|by apply tick_display_ok].
  - unfold timeout_fires. destruct (decide _); [|done].
    split; [by apply setTimer_within_hour|by apply setTimer_display_ok].
Qed.

Lemma run_view_ok es s :
  within_hour s ∧ display_ok s → within_hour (run es s) ∧ display_ok (run es s).
Proof.
  revert s. induction es as [|e es IH]; intros s H; [done|].
  cbn. apply IH. by apply handle_view_ok.
Qed.

Lemma initial_view_ok startText startDisabled :
  within_hour (initial startText startDisabled)
  ∧ display_ok (initial startText startDisabled).
Proof.
  split; [unfold within_hour, totalSeconds; cbn; lia|]. by left.
Qed.

(** X2. Whatever is clicked and whenever the host runs the callbacks, the
    timer built by the constructor never holds more than an hour:
    minutes are between 0 and 60, seconds between 0 and 59, and 60 minutes
    only with 0 seconds. *)
Theorem timer_within_hour (es : list event) (startText : string)
    (startDisabled : bool) :
  0 ≤ timerMinutes (run es (initial startText startDisabled)) ≤ 60
  ∧ 0 ≤ timerSeconds (run es (initial startText startDisabled)) ≤ 59
  ∧ totalSeconds (run es (initial startText startDisabled)) ≤ 3600.
Proof.
  destruct (run_view_ok es _ (initial_view_ok startText startDisabled))
    as [(Hm & Hs & Ht) _].
  unfold totalSeconds in *. repeat split; lia.
Qed.

(** X3. The display of the timer built by the constructor always reads
    the remaining time as two digits, a colon and two digits, except
    while it shows the completion message, and then the time is 0:00. *)
Theorem timer_display_shows_time (es : list event) (startText : string)
    (startDisabled : bool) :
  timerDisplay (run es (initial startText startDisabled))
  = clock (timerMinutes (run es (initial startText startDisabled)))
      (timerSeconds (run es (initial startText startDisabled)))
  ∨ (timerDisplay (run es (initial startText startDisabled))
     = "Session Complete!"%string
     ∧ remaining (run es (initial startText startDisabled)) = (0, 0)).
Proof.
  by destruct (run_view_ok es _ (initial_view_ok startText startDisabled))
    as [_ Hd].
Qed.

(** X4. The timer built by the constructor never has two tick sources:
    the handle is set exactly while the timer runs, the host has only
    the interval of the handle to fire while it runs and none while it is
    stopped, so that a stopped timer never counts down. *)
Theorem timer_single_interval (es : list event) (startText : string)
    (startDisabled : bool) :
  (timerRunning (run es (initial startText startDisabled)) = true
   ↔ is_Some (timerInterval (run es (initial startText startDisabled))))
  ∧ intervals (run es (initial startText startDisabled))
    = from_option singleton ∅ (timerInterval (run es (initial startText startDisabled)))
  ∧ (size (intervals (run es (initial startText startDisabled))) ≤ 1)%nat
  ∧ (timerRunning (run es (initial startText startDisabled)) = false →
     ∀ h, interval_fires h (run es (initial startText startDisabled))
          = run es (initial startText startDisabled)).
Proof.
  destruct (run_handle_ok es _ (initial_handle_ok startText startDisabled))
    as (Hrun & Hset & _).
  split; [done|]. split; [done|]. split.
  - rewrite Hset.
    destruct (timerInterval _); cbn;
      [by rewrite size_singleton|by rewrite size_empty; lia].
  - intros Hoff h. unfold interval_fires. rewrite Hset.
    destruct (timerInterval _) as [h'|] eqn:E.
    + destruct Hrun as [_ Hrun]. rewrite Hoff in Hrun. by discriminate Hrun.
    + cbn. by rewrite decide_False by set_solver.
Qed.

(** X5. A second click on start does nothing: starting a timer that has
    just been started leaves it exactly as it is. *)
Theorem startTimer_twice (s : state) : startTimer (startTimer s) = startTimer s.
Proof.
  unfold startTimer at 2 3.
  destruct (negb (timerRunning s) && _) eqn:E; [|unfold startTimer; by rewrite E].
  unfold startTimer. reflexivity.
Qed.


Lemma timeout_fires_pending h s :
  h ∈ timeouts s → timeout_fires h s = resetTimer (timeout_done h s).
Proof. intros H. unfold timeout_fires. by rewrite decide_True. Qed.

Lemma resetTimer_timeouts s : timeouts (resetTimer s) = timeouts s.
Proof.
  unfold resetTimer. cbn. unfold pauseTimer.
  destruct (timerRunning s); [|done]. cbn. by destruct (timerInterval s).
Qed.

(** X6. The delayed reset, whenever the host runs it, resets whatever the
    timer is doing at that moment, also a countdown started again in the
    meantime: the time is back at 60:00 and shown, the timer is stopped
    with no interval firing, and the timeout is used up, so that the host
    running the same handle again changes nothing. *)
Theorem delayed_reset_resets (h : positive) (s : state) :
  handle_ok s → h ∈ timeouts s →
  remaining (timeout_fires h s) = (60, 0)
  ∧ timerDisplay (timeout_fires h s) = "60:00"%string
  ∧ timerRunning (timeout_fires h s) = false
  ∧ timerInterval (timeout_fires h s) = None
  ∧ intervals (timeout_fires h s) = ∅
  ∧ timeouts (timeout_fires h s) = timeouts s ∖ {[h]}
  ∧ timeout_fires h (timeout_fires h s) = timeout_fires h s.
Proof.
  intros Hok Hin. rewrite timeout_fires_pending by done.
  assert (handle_ok (timeout_done h s)) as Hok' by exact Hok.
  destruct (pauseTimer_cleared _ Hok') as [Hi Hs].
  split; [done|]. split; [done|]. split; [apply setTimer_running|].
  split; [done|]. split; [done|].
  assert (timeouts (resetTimer (timeout_done h s)) = timeouts s ∖ {[h]}) as Ht
      by (by rewrite resetTimer_timeouts).
  split; [done|]. unfold timeout_fires at 1.
  rewrite decide_False; [done|]. rewrite Ht. set_solver.
Qed.

Lemma delayed_reset_resets_witness :
  remaining
    (run [ClickPreset Preset15; ClickStart; IntervalFires 2]
       (timerComplete (initial "Start" false))) = (14, 59)
  ∧ remaining
      (timeout_fires 1
         (run [ClickPreset Preset15; ClickStart; IntervalFires 2]
            (timerComplete (initial "Start" false)))) = (60, 0).
Proof.
  split; [vm_compute; reflexivity|].
  apply (delayed_reset_resets 1
           (run [ClickPreset Preset15; ClickStart; IntervalFires 2]
              (timerComplete (initial "Start" false)))).
  - apply run_handle_ok, timerComplete_handle_ok, initial_handle_ok.
  - refine (bool_decide_unpack _ _). vm_compute. exact I.
Defined.



End TimerRuns.

(** ** Moving through the playlist *)

Module PlayerMoves.
Import Player PlayerFacts.

Lemma playPrevious_eq p :
  index_ok p →
  playPrevious p
  = let q := loadTrack (JS.Int ((currentTrackIndex p - 1) `mod` trackCount p)) p in
    if isPlaying q then audio_play q else q.
Proof.
  intros [Hlo Hhi]. unfold playPrevious.
  destruct (Z.eqb_spec (currentTrackIndex p) 0) as [E|E].
  - rewrite E. replace ((0 - 1) `mod` trackCount p) with (trackCount p - 1); [done|].
    apply (Z.mod_unique_pos _ _ (-1)); lia.
  - by rewrite (Z.mod_small (currentTrackIndex p - 1)) by lia.
Qed.

Lemma previous_in_playlist p :
  index_ok p →
  0 ≤ (currentTrackIndex p - 1) `mod` trackCount p < trackCount p.
Proof. intros [Hlo Hhi]. apply Z.mod_pos_bound. lia. Qed.

Lemma playPrevious_index p :
  index_ok p →
  currentTrackIndex (playPrevious p) = (currentTrackIndex p - 1) `mod` trackCount p.
Proof.
  intros Hidx. rewrite playPrevious_eq by done. cbv zeta.
  rewrite audio_play_if_currentTrackIndex.
  by apply loadTrack_currentTrackIndex, previous_in_playlist.
Qed.

Lemma playPrevious_isShuffled p :
  index_ok p → isShuffled (playPrevious p) = isShuffled p.
Proof.
  intros Hidx. rewrite playPrevious_eq by done. cbv zeta.
  by rewrite audio_play_if_isShuffled, loadTrack_isShuffled.
Qed.

Lemma playPrevious_loaded p t :
  index_ok p →
  tracks p !! Z.to_nat ((currentTrackIndex p - 1) `mod` trackCount p) = Some t →
  audio_src (playPrevious p) = src t ∧ trackTitle (playPrevious p) = title t.
Proof.
  intros Hidx Ht. rewrite playPrevious_eq by done. cbv zeta.
  rewrite audio_play_if_audio_src, audio_play_if_trackTitle.
  apply loadTrack_loaded; [by apply previous_in_playlist|done].
Qed.

(** X8. [playPrevious] steps back by one and wraps from the first track
    to the last, whether shuffle is on or not; the track it arrives at is
    the one loaded, and the playlist is as before. *)
Theorem playPrevious_steps_back (p : state) :
  index_ok p →
  currentTrackIndex (playPrevious p)
  = (currentTrackIndex p - 1) `mod` trackCount p
  ∧ index_ok (playPrevious p)
  ∧ tracks (playPrevious p) = tracks p
  ∧ isShuffled (playPrevious p) = isShuffled p
  ∧ (∀ t, tracks p !! Z.to_nat ((currentTrackIndex p - 1) `mod` trackCount p) = Some t →
          audio_src (playPrevious p) = src t ∧ trackTitle (playPrevious p) = title t).
Proof.
  intros Hidx.
  split; [by apply playPrevious_index|].
  split; [by apply (handle_index_ok ClickPrevious)|].
  split; [apply (handle_tracks ClickPrevious)|].
  split; [by apply playPrevious_isShuffled|].
  intros t Ht. by apply playPrevious_loaded.
Qed.

Lemma playPrevious_steps_back_witness :
  currentTrackIndex (playPrevious player_ABC) = 2.
Proof.
  destruct (playPrevious_steps_back player_ABC) as [H _].
  - unfold index_ok. vm_compute. split; [discriminate|reflexivity].
  - rewrite H. reflexivity.
Defined.

(** X9. With shuffle off, previous undoes next and next undoes previous:
    either way round the original index is current again, with its track
    loaded. *)
Theorem next_previous_inverse (r : Q) (p : state) (t : Track) :
  isShuffled p = false → index_ok p →
  tracks p !! Z.to_nat (currentTrackIndex p) = Some t →
  (currentTrackIndex (playPrevious (playNext r p)) = currentTrackIndex p
   ∧ audio_src (playPrevious (playNext r p)) = src t)
  ∧ (currentTrackIndex (playNext r (playPrevious p)) = currentTrackIndex p
     ∧ audio_src (playNext r (playPrevious p)) = src t).
Proof.
  intros Hoff Hidx Ht. pose proof Hidx as [Hlo Hhi].
  assert (index_ok (playNext r p)) as Hn by (by apply (handle_index_ok (ClickNext r))).
  pose proof (playPrevious_index (playNext r p) Hn) as N1.
  pose proof (playPrevious_loaded (playNext r p) t Hn) as N5.
  pose proof (playPrevious_index p Hidx) as P1.
  pose proof (handle_index_ok ClickPrevious p Hidx) as P2. cbn [handle] in P2.
  pose proof (handle_tracks ClickPrevious p) as P3. cbn [handle] in P3.
  pose proof (playPrevious_isShuffled p Hidx) as P4.
  assert (((currentTrackIndex p + 1) `mod` trackCount p - 1) `mod` trackCount p
          = currentTrackIndex p) as Hback.
  { rewrite Zminus_mod_idemp_l. replace (currentTrackIndex p + 1 - 1)
      with (currentTrackIndex p) by lia. by apply Z.mod_small. }
  assert (((currentTrackIndex p - 1) `mod` trackCount p + 1) `mod` trackCount p
          = currentTrackIndex p) as Hforth.
  { rewrite Zplus_mod_idemp_l. replace (currentTrackIndex p - 1 + 1)
      with (currentTrackIndex p) by lia. by apply Z.mod_small. }
  split.
  - rewrite playNext_index, playNext_trackCount in N1, N5 by done.
    rewrite Hback in N1, N5. split; [done|].
    apply N5. by rewrite playNext_tracks.
  - assert (isShuffled (playPrevious p) = false) as Hoff' by congruence.
    assert (trackCount (playPrevious p) = trackCount p) as Hc
        by (unfold trackCount; by rewrite P3).
    split.
    + rewrite playNext_index by done. by rewrite P1, Hc.
    + apply playNext_loaded; [done|done|]. by rewrite P1, Hc, Hforth, P3.
Qed.

Lemma next_previous_inverse_witness :
  currentTrackIndex (playPrevious (playNext (1 # 4) player_ABC)) = 0
  ∧ audio_src (playNext (1 # 4) (playPrevious player_ABC)) = "a.mp3"%string.
Proof.
  destruct (next_previous_inverse (1 # 4) player_ABC (mkTrack "a.mp3" "A" 0))
    as [[H1 _] [_ H2]].
  - vm_compute. reflexivity.
  - unfold index_ok. vm_compute. split; [discriminate|reflexivity].
  - vm_compute. reflexivity.
  - split; [rewrite H1; reflexivity|exact H2].
Defined.

(** A draw that lands on position [j] of [n]: the least multiple of
    2^-53 whose product with [n] is at least [j]. *)
Lemma shuffle_draw j n :
  0 ≤ j < n → n ≤ 2 ^ 52 →
  ∃ r, draw_ok r ∧ randomIndex r n = j.
Proof.
  intros Hj Hn. set (c := (j * 2 ^ 53 + n - 1) `div` n).
  assert (0 ≤ c < 2 ^ 53 ∧ j * 2 ^ 53 ≤ c * n < j * 2 ^ 53 + n) as [Hc Hcn].
  { pose proof (Z.div_mod (j * 2 ^ 53 + n - 1) n ltac:(lia)) as E.
    pose proof (Z.mod_pos_bound (j * 2 ^ 53 + n - 1) n ltac:(lia)) as B.
    fold c in E. change (2 ^ 53) with 9007199254740992 in *.
    change (2 ^ 52) with 4503599627370496 in *. split; nia. }
  exists (inject_Z c * JS.pow2 (-53))%Q.
  assert (0 <= inject_Z c)%Q as Hc0.
  { change 0%Q with (inject_Z 0). rewrite <- Zle_Qle. lia. }
  assert (inject_Z c < inject_Z (2 ^ 53))%Q as Hc1 by (rewrite <- Zlt_Qlt; lia).
  assert (inject_Z (j * 2 ^ 53) <= inject_Z (c * n))%Q as Hlo
      by (rewrite <- Zle_Qle; lia).
  assert (inject_Z (c * n) < inject_Z (j * 2 ^ 53 + 2 ^ 52))%Q as Hhi
      by (rewrite <- Zlt_Qlt; lia).
  assert (inject_Z j < inject_Z (2 ^ 52))%Q as Hj' by (rewrite <- Zlt_Qlt; lia).
  rewrite inject_Z_plus in Hhi. rewrite !inject_Z_mult in Hlo, Hhi.
  change (inject_Z (2 ^ 53)) with 9007199254740992%Q in *.
  change (inject_Z (2 ^ 52)) with 4503599627370496%Q in *.
  split; [split; [|split]|].
  - apply DoubleFacts.is_double_53. lia.
  - change (JS.pow2 (-53)) with (1 # 9007199254740992)%Q. lra.
  - change (JS.pow2 (-53)) with (1 # 9007199254740992)%Q. lra.
  - unfold randomIndex. apply DoubleFacts.round64_floor; [|lia|..];
      change (JS.pow2 53) with 9007199254740992%Q;
      change (JS.pow2 (-53)) with (1 # 9007199254740992)%Q; lra.
Qed.

(** X10. With shuffle on, [playNext] can arrive at every track of the
    playlist, the current one included: for each position there is a
    double in [[0, 1)] that [Math.random ()] may return and that makes it
    the current one.  (The playlist has at most 2^52 tracks; an array
    holds fewer than 2^32.) *)
Theorem shuffle_reaches_every_track (j : Z) (p : state) :
  isShuffled p = true → 0 ≤ j < trackCount p → trackCount p ≤ 2 ^ 52 →
  ∃ r, (JS.is_double r = true ∧ (0 <= r)%Q ∧ (r < 1)%Q)
       ∧ currentTrackIndex (playNext r p) = j
       ∧ Qfloor (JS.round64 (r * inject_Z (trackCount p))) = j.
Proof.
  intros Hon Hj Hn. destruct (shuffle_draw j (trackCount p) Hj Hn) as (r & Hr & E).
  exists r. split; [done|]. split; [|done].
  unfold playNext. rewrite Hon, E.
  rewrite audio_play_if_currentTrackIndex. by apply loadTrack_currentTrackIndex.
Qed.

Lemma shuffle_reaches_every_track_witness :
  ∃ r, (JS.is_double r = true ∧ (0 <= r)%Q ∧ (r < 1)%Q)
       ∧ currentTrackIndex (playNext r (toggleShuffle player_ABC)) = 2
       ∧ Qfloor (JS.round64 (r * inject_Z (trackCount (toggleShuffle player_ABC)))) = 2.
Proof.
  apply (shuffle_reaches_every_track 2 (toggleShuffle player_ABC)).
  - reflexivity.
  - vm_compute. split; [discriminate|reflexivity].
  - vm_compute. discriminate.
Defined.

End PlayerMoves.

(** ** The player on the page *)

Module PlayerPage.
Import Player PlayerView PlayerFacts.






Lemma not_elem_of_remove c (l : list string) : ¬ c ∈ JS.classList_remove c l.
Proof. intros [H _]%list_elem_of_filter. by apply H. Qed.

Lemma loadTrack_marker_ok index p : marker_ok p → marker_ok (loadTrack index p).
Proof.
  intros Hp. destruct index as [i|]; [|done].
  destruct (decide (0 ≤ i < trackCount p)) as [Hi|Hi];
    [|by rewrite loadTrack_out_of_range].
  destruct (lookup_track p i Hi) as [t Ht].
  destruct (loadTrack_progress_reset p i t Hi Ht) as (_ & _ & _ & Hno & _).
  intros Hin. by destruct Hno.
Qed.

Lemma audio_play_if_marker_ok (b : bool) p :
  marker_ok p → marker_ok (if b then audio_play p else p).
Proof. by destruct b. Qed.

Lemma handle_marker_ok e p : marker_ok p → marker_ok (handle e p).
Proof.
  intros Hp. destruct e; cbn [handle]; try done.
  - unfold togglePlayPause. destruct (isPlaying p) eqn:E.
    + intros Hin. cbn in Hin. by apply not_elem_of_remove in Hin.
    + exact Hp.
  - unfold playNext. by apply audio_play_if_marker_ok, loadTrack_marker_ok.
  - unfold playPrevious. by apply audio_play_if_marker_ok, loadTrack_marker_ok.
  - by apply loadTrack_marker_ok.
  - unfold handleTrackEnd. destruct (isRepeating p); [done|].
    unfold playNext. by apply audio_play_if_marker_ok, loadTrack_marker_ok.
  - by apply loadTrack_marker_ok.
Qed.

(** X12. The playing marker never outlives playing: if the progress fill
    carries it only while [isPlaying] is set, this stays so after any
    clicks and media events. *)
Theorem playing_marker_only_while_playing (es : list event) (p : state) :
  marker_ok p → marker_ok (run es p).
Proof.
  revert p. induction es as [|e es IH]; intros p Hp; [done|].
  cbn [run foldl]. apply IH. by apply handle_marker_ok.
Qed.

Lemma playing_marker_only_while_playing_witness :
  isPlaying (run [ClickPlayPause; PlayResolved] player_ABC) = true.
Proof.
  apply (playing_marker_only_while_playing [ClickPlayPause; PlayResolved] player_ABC).
  - intros Hin. vm_compute in Hin. by apply elem_of_nil in Hin.
  - refine (bool_decide_unpack _ _). vm_compute. exact I.
Defined.

Lemma remove_absent c (l : list string) :
  ¬ c ∈ l → JS.classList_remove c l = l.
Proof.
  intros Hc. unfold JS.classList_remove.
  induction l as [|x l IH]; [done|].
  rewrite filter_cons_True.
  - f_equal. apply IH. intros H. apply Hc. by right.
  - intros ->. apply Hc. by left.
Qed.

Lemma remove_add_absent c (l : list string) :
  ¬ c ∈ l → JS.classList_remove c (JS.classList_add c l) = l.
Proof.
  intros Hc. unfold JS.classList_add. rewrite decide_False by done.
  unfold JS.classList_remove. rewrite filter_app.
  rewrite filter_cons_False by (intros H; by apply H).
  rewrite filter_nil, app_nil_r. by apply remove_absent.
Qed.

(** X13. A request to play that the browser rejects leaves the player as
    it was, apart from the request having been made; one that succeeds
    sets [isPlaying] and the playing marker with the loading marker gone,
    and the pause that follows puts flags and markers back as they were
    before the click. *)
Theorem play_then_pause_restores (p : state) :
  isPlaying p = false →
  ¬ ("playing" : string) ∈ progressFill_classList p →
  ¬ ("loading" : string) ∈ progressContainer_classList p →
  playRejected (togglePlayPause p) = audio_play p
  ∧ isPlaying (playResolved (togglePlayPause p)) = true
  ∧ ("playing" : string) ∈ progressFill_classList (playResolved (togglePlayPause p))
  ∧ progressContainer_classList (playResolved (togglePlayPause p))
    = progressContainer_classList p
  ∧ togglePlayPause (playResolved (togglePlayPause p))
    = audio_pause (audio_play p).
Proof.
  intros Hoff Hfill Hcont. destruct p as [doc trs idx playing sh rep asrc reqs
    ttl bar width fill cont span]. cbn in Hoff, Hfill, Hcont. subst playing.
  unfold togglePlayPause, playRejected, playResolved, audio_play, audio_pause.
  cbn -[JS.classList_remove JS.classList_add].
  rewrite !remove_add_absent by done. rewrite !remove_absent by done.
  split; [done|]. split; [done|]. split; [|done].
  unfold JS.classList_add. rewrite decide_False by done.
  apply elem_of_app. right. by left.
Qed.

Lemma play_then_pause_restores_witness :
  audio_requests (togglePlayPause (playResolved (togglePlayPause player_ABC)))
  = [true; false].
Proof.
  destruct (play_then_pause_restores player_ABC) as (_ & _ & _ & _ & H).
  - reflexivity.
  - intros Hin. vm_compute in Hin. by apply elem_of_nil in Hin.
  - intros Hin. vm_compute in Hin. by apply elem_of_nil in Hin.
  - rewrite H. reflexivity.
Defined.

(** *** Whole seconds *)

Lemma Qfloor_minus_Z (q : Q) (k : Z) :
  Qfloor (q - inject_Z k) = Qfloor q - k.
Proof.
  pose proof (Qfloor_le q) as H1. pose proof (Qlt_floor q) as H2.
  pose proof (Qfloor_le (q - inject_Z k)) as H3.
  pose proof (Qlt_floor (q - inject_Z k)) as H4.
  rewrite inject_Z_plus in H2, H4. change (inject_Z 1) with 1%Q in H2, H4.
  assert (Qfloor (q - inject_Z k) + k < Qfloor q + 1) as Ha.
  { rewrite Zlt_Qlt, !inject_Z_plus. change (inject_Z 1) with 1%Q. lra. }
  assert (Qfloor q < Qfloor (q - inject_Z k) + k + 1) as Hb.
  { rewrite Zlt_Qlt, !inject_Z_plus. change (inject_Z 1) with 1%Q. lra. }
  lia.
Qed.

Lemma Qfloor_div_60 (s : Q) : Qfloor (s / 60) = Qfloor s `div` 60.
Proof.
  pose proof (Qfloor_le s) as H1. pose proof (Qlt_floor s) as H2.
  pose proof (Qfloor_le (s / 60)) as H3. pose proof (Qlt_floor (s / 60)) as H4.
  rewrite inject_Z_plus in H2, H4. change (inject_Z 1) with 1%Q in H2, H4.
  unfold Qdiv in H3, H4. change (/ 60)%Q with (1 # 60)%Q in H3, H4.
  set (m := Qfloor (s * (1 # 60))) in *. unfold Qdiv.
  change (/ 60)%Q with (1 # 60)%Q. fold m.
  assert (60 * m ≤ Qfloor s) as Ha.
  { apply Z.lt_succ_r. unfold Z.succ.
    rewrite Zlt_Qlt, !inject_Z_plus, inject_Z_mult.
    change (inject_Z 1) with 1%Q. change (inject_Z 60) with 60%Q. lra. }
  assert (Qfloor s < 60 * m + 60) as Hb.
  { rewrite Zlt_Qlt, !inject_Z_plus, inject_Z_mult.
    change (inject_Z 60) with 60%Q. lra. }
  apply (Z.div_unique_pos _ _ _ (Qfloor s - 60 * m)); lia.
Qed.

(** X14. [formatTime] reads whole seconds: for a time that is a double,
    not negative and below 2^53, sixty times the minutes it computes
    (from the rounded quotient) plus the seconds it computes is the time
    rounded down, the text is the Euclidean quotient and remainder by 60
    of the whole seconds, and the fraction of a second makes no
    difference to the text. *)
Theorem formatTime_whole_seconds (seconds : Q) :
  JS.is_double seconds = true → (0 <= seconds)%Q →
  (seconds < inject_Z (2 ^ 53))%Q →
  60 * Qfloor (JS.round64 (seconds / 60)) + Qfloor (JS.Qrem seconds 60)
  = Qfloor seconds
  ∧ formatTime (JS.Num seconds)
    = JS.toString (Qfloor seconds `div` 60) +:+ ":"
      +:+ two_digits (Qfloor seconds `mod` 60)
  ∧ formatTime (JS.Num (inject_Z (Qfloor seconds))) = formatTime (JS.Num seconds).
Proof.
  intros Hd Hs H53.
  assert (∀ x, JS.is_double x = true → (0 <= x)%Q → (x < inject_Z (2 ^ 53))%Q →
            formatTime (JS.Num x)
            = JS.toString (Qfloor x `div` 60) +:+ ":"
              +:+ two_digits (Qfloor x `mod` 60)
            ∧ 60 * Qfloor (JS.round64 (x / 60)) + Qfloor (JS.Qrem x 60)
              = Qfloor x) as Hfmt.
  { intros x Hdx Hx Hx53. rewrite formatTime_exact by done.
    unfold formatTime_spec. cbv zeta.
    rewrite DoubleFacts.divide_60_floor by done.
    rewrite Qrem_nonneg by done.
    replace (60 * inject_Z (Qfloor (x / 60)))%Q
      with (inject_Z (60 * Qfloor (x / 60)))
      by (rewrite inject_Z_mult; reflexivity).
    rewrite Qfloor_minus_Z, Qfloor_div_60.
    rewrite Z.mod_eq by lia. split; [done|lia]. }
  destruct (Hfmt seconds Hd Hs H53) as [Hf Hsum]. split; [done|]. split; [done|].
  assert (0 ≤ Qfloor seconds < 2 ^ 53) as Hz.
  { split.
    - change 0 with (Qfloor 0). by apply Qfloor_resp_le.
    - rewrite Zlt_Qlt. eapply Qle_lt_trans; [apply Qfloor_le|done]. }
  destruct (Hfmt (inject_Z (Qfloor seconds))) as [Hf' _].
  - by apply DoubleFacts.is_double_Z.
  - change 0%Q with (inject_Z 0). rewrite <- Zle_Qle. lia.
  - rewrite <- Zlt_Qlt. lia.
  - by rewrite Hf', Hf, Qfloor_Z.
Qed.

Lemma loadTrack_audio_requests index p :
  audio_requests (loadTrack index p) = audio_requests p.
Proof.
  unfold loadTrack. destruct index as [i|]; [|done].
  destruct (_ && _); [|done]. by destruct (tracks p !! Z.to_nat i).
Qed.

(** X22. Next and previous carry on playing: they leave [isPlaying] as it
    is and ask the media element to play exactly when it is set.
    Choosing a track in the list never asks it to play, not even while
    [isPlaying] is set, and leaves the flag set. *)
Theorem track_change_and_playback (r : Q) (i : Z) (p : state) :
  (isPlaying (playNext r p) = isPlaying p
   ∧ audio_requests (playNext r p)
     = audio_requests p ++ (if isPlaying p then [true] else []))
  ∧ (isPlaying (playPrevious p) = isPlaying p
     ∧ audio_requests (playPrevious p)
       = audio_requests p ++ (if isPlaying p then [true] else []))
  ∧ (isPlaying (trackListClick i p) = isPlaying p
     ∧ audio_requests (trackListClick i p) = audio_requests p).
Proof.
  assert (∀ index,
            let q := loadTrack index p in
            isPlaying (if isPlaying q then audio_play q else q) = isPlaying p
            ∧ audio_requests (if isPlaying q then audio_play q else q)
              = audio_requests p ++ (if isPlaying p then [true] else [])) as H.
  { intros index. cbv zeta. rewrite (loadTrack_isPlaying index p).
    destruct (isPlaying p) eqn:E; cbn.
    - by rewrite loadTrack_isPlaying, loadTrack_audio_requests.
    - by rewrite loadTrack_isPlaying, loadTrack_audio_requests, app_nil_r. }
  split; [apply H|]. split; [apply H|].
  unfold trackListClick. by rewrite loadTrack_isPlaying, loadTrack_audio_requests.
Qed.

(** X23. On a page with track items the constructor selects the first
    one: index 0 is current, source and title are those the first item
    carries in its data attributes, that item alone among the tracks has
    the active marker, nothing is playing, and the playlist has one track
    per item with the progress indicators at zero. *)
Theorem constructor_selects_first (doc : list Element) (item : nat)
    (rest : list nat) (e : Element)
    (titleText barValue fillWidth : string)
    (fillClasses containerClasses : list string) (timeText : string) :
  querySelectorAll "track-item" doc = item :: rest → doc !! item = Some e →
  currentTrackIndex (constructed doc titleText barValue fillWidth fillClasses
                       containerClasses timeText) = 0
  ∧ element <$> tracks (constructed doc titleText barValue fillWidth fillClasses
                          containerClasses timeText) = item :: rest
  ∧ audio_src (constructed doc titleText barValue fillWidth fillClasses
                 containerClasses timeText) = dataset_src e
  ∧ trackTitle (constructed doc titleText barValue fillWidth fillClasses
                  containerClasses timeText) = dataset_title e
  ∧ (∀ k u, tracks (constructed doc titleText barValue fillWidth fillClasses
                      containerClasses timeText) !! k = Some u →
            is_active (constructed doc titleText barValue fillWidth fillClasses
                         containerClasses timeText) u = bool_decide (k = 0%nat))
  ∧ isPlaying (constructed doc titleText barValue fillWidth fillClasses
                 containerClasses timeText) = false
  ∧ progress_reset (constructed doc titleText barValue fillWidth fillClasses
                      containerClasses timeText).
Proof.
  intros Hq He. unfold constructed.
  set (p0 := mkState _ _ _ _ _ _ _ _ _ _ _ _ _ _).
  set (p1 := loadTracks p0).
  assert (tracks_ok p1) as Hok by apply loadTracks_tracks_ok.
  assert (element <$> tracks p1 = item :: rest) as Hel
      by (unfold tracks_ok in Hok; by rewrite Hok).
  assert (tracks p1 !! 0%nat = Some (mkTrack (dataset_src e) (dataset_title e) item))
    as Ht.
  { unfold p1, loadTracks. cbn [tracks set_tracks document p0].
    rewrite Hq. cbn [omap list_omap]. by rewrite He. }
  assert (0 ≤ 0 < trackCount p1) as Hin.
  { unfold trackCount. rewrite <- (length_fmap element), Hel. cbn. lia. }
  split; [by apply loadTrack_currentTrackIndex|].
  split; [by rewrite loadTrack_tracks|].
  destruct (loadTrack_loaded 0 _ p1 Hin Ht) as [Hsrc Httl].
  split; [done|]. split; [done|].
  split; [|split; [by rewrite loadTrack_isPlaying|
                   by apply (loadTrack_progress_reset p1 0 _ Hin Ht)]].
  intros k u Hu. rewrite loadTrack_tracks in Hu.
  by apply (loadTrack_is_active p1 0 _ Hok Hin Ht).
Qed.

Lemma constructor_selects_first_witness :
  audio_src player_ABC = "a.mp3"%string ∧ trackTitle player_ABC = "A"%string.
Proof.
  destruct (constructor_selects_first page_ABC 0 [1; 3]%nat
              (mkElement ["track-item"; "active"] "a.mp3" "A")
              "" "0" "0%" [] [] "0:00") as (_ & _ & Hs & Ht & _).
  - vm_compute. reflexivity.
  - reflexivity.
  - split; [exact Hs|exact Ht].
Defined.

Lemma formatTime_whole_seconds_witness :
  formatTime (JS.Num (527 # 4)) = formatTime (JS.Num 131).
Proof.
  destruct (formatTime_whole_seconds (527 # 4)) as (_ & _ & H).
  - vm_compute. reflexivity.
  - vm_compute. discriminate.
  - vm_compute. reflexivity.
  - rewrite <- H. reflexivity.
Defined.

End PlayerPage.

(** ** The todo list over time *)

Module TodoRuns.
Import Todo TodoView TodoFacts.

(** *** Trimmed texts *)

Lemma trimStart_head s :
  JS.trimStart s = []
  ∨ ∃ c rest, JS.trimStart s = c :: rest ∧ JS.isWhiteSpace c = false.
Proof.
  induction s as [|c rest IH]; [by left|]. cbn [JS.trimStart].
  destruct (JS.isWhiteSpace c) eqn:E; [done|]. right. by exists c, rest.
Qed.

Lemma trimEnd_head c rest :
  JS.isWhiteSpace c = false →
  ∃ r, JS.trimEnd (c :: rest) = c :: r.
Proof.
  intros E. cbn [JS.trimEnd]. destruct (JS.trimEnd rest) as [|c' r'].
  - rewrite E. by exists [].
  - by exists (c' :: r').
Qed.

Lemma trimEnd_trimEnd s : JS.trimEnd (JS.trimEnd s) = JS.trimEnd s.
Proof.
  induction s as [|c rest IH]; [done|]. cbn [JS.trimEnd].
  destruct (JS.trimEnd rest) as [|c' r'] eqn:E.
  - destruct (JS.isWhiteSpace c) eqn:Ec; [done|]. cbn [JS.trimEnd]. by rewrite Ec.
  - change (JS.trimEnd (c :: c' :: r'))
      with (match JS.trimEnd (c' :: r') with
            | [] => if JS.isWhiteSpace c then [] else [c]
            | r => c :: r
            end).
    by rewrite IH.
Qed.

Lemma trim_trim s : JS.trim (JS.trim s) = JS.trim s.
Proof.
  unfold JS.trim. destruct (trimStart_head s) as [->|(c & rest & -> & Ec)]; [done|].
  destruct (trimEnd_head c rest Ec) as [r Hr]. rewrite Hr.
  cbn [JS.trimStart]. rewrite Ec, <- Hr. apply trimEnd_trimEnd.
Qed.

Lemma trimEnd_last s c :
  last (JS.trimEnd s) = Some c → JS.isWhiteSpace c = false.
Proof.
  induction s as [|d rest IH]; [done|]. cbn [JS.trimEnd].
  destruct (JS.trimEnd rest) as [|c' r'] eqn:E.
  - destruct (JS.isWhiteSpace d) eqn:Ed; [done|].
    cbn. intros H. by injection H as <-.
  - change (last (d :: c' :: r')) with (last (c' :: r')). exact IH.
Qed.

Lemma trim_trimmed s : trimmed (JS.trim s).
Proof.
  unfold JS.trim. split; [|apply trimEnd_last].
  destruct (trimStart_head s) as [->|(c & rest & -> & Ec)]; [done|].
  destruct (trimEnd_head c rest Ec) as [r ->]. cbn. intros d H.
  by injection H as <-.
Qed.

Lemma handle_texts_ok e s : texts_ok s → texts_ok (handle e s).
Proof.
  intros H. destruct e as [v|now|[n|n|]]; cbn [handle handleTodoClick]; try done.
  - destruct (decide (JS.trim (todoInput s) = [])) as [E|E].
    { by rewrite addTodo_blank. }
    unfold texts_ok. rewrite addTodo_eq, renderTodos_eq by done. cbn.
    apply Forall_app. split; [done|]. constructor; [|constructor].
    cbn. split; [done|]. split; [apply trim_trimmed|apply trim_trim].
  - unfold texts_ok, toggleTodo.
    destruct (list_find _ _) as [[k t]|] eqn:E; [|done].
    rewrite renderTodos_eq. cbn. apply Forall_insert; [done|].
    apply list_find_Some in E as [Hk _].
    unfold texts_ok in H. rewrite Forall_forall in H.
    apply (H t). by apply list_elem_of_lookup_2 in Hk.
  - unfold texts_ok. rewrite deleteTodo_todos. by apply Forall_filter_keep.
Qed.

(** X15. Every text in the list built by the constructor is what
    [trim] leaves of what was typed: it is never empty, its first code
    unit is not white space and neither is its last (tab, line breaks,
    space, no-break space, byte order mark and the Unicode separators all
    count), and trimming it again changes nothing; whatever is typed,
    added, toggled and deleted. *)
Theorem texts_stay_trimmed (es : list event) (inputValue : JS.str)
    (items : list JS.str) (countText : string) :
  Forall (λ t, text t ≠ []
               ∧ (∀ c, head (text t) = Some c → JS.isWhiteSpace c = false)
               ∧ (∀ c, last (text t) = Some c → JS.isWhiteSpace c = false)
               ∧ JS.trim (text t) = text t)
    (todos (run es (initial inputValue items countText))).
Proof.
  assert (∀ s, texts_ok s → texts_ok (run es s)) as Hrun.
  { induction es as [|e es IH]; intros s H; [done|].
    cbn [run foldl]. apply IH. by apply handle_texts_ok. }
  assert (texts_ok (run es (initial inputValue items countText))) as H.
  { apply Hrun. constructor. }
  eapply Forall_impl; [exact H|]. cbn. intros t (Hne & [Hh Hl] & Ht). done.
Qed.

(** *** The page shows the list *)

Lemma toggleTodo_rendered n s : rendered s → rendered (toggleTodo n s).
Proof.
  intros H. unfold toggleTodo.
  destruct (list_find _ _) as [[k t]|]; [apply rendered_after|done].
Qed.

Lemma addTodo_rendered now s : rendered s → rendered (addTodo now s).
Proof.
  intros H. unfold addTodo. destruct (decide _); [done|apply rendered_after].
Qed.

Lemma handle_rendered e s : rendered s → rendered (handle e s).
Proof.
  intros H. destruct e as [v|now|[n|n|]]; cbn [handle handleTodoClick]; try done.
  - by apply addTodo_rendered.
  - by apply toggleTodo_rendered.
  - apply rendered_after.
Qed.

(** X16. Once the page shows the list it keeps showing it: after any
    typing, adding and clicking there is one list item per entry, in the
    order of the list, and the markup assigned to the item of an entry is
    the template of [renderTodos] filled in for it: an [input] of type
    [checkbox] and class [todo-checkbox], with [checked] when the entry
    is completed and the id as [data-id]; a [span] of class [todo-text],
    and [completed] when the entry is, around the text as it was typed
    (not escaped); and a [button] of class [todo-delete] with the id as
    [data-id] around a multiplication sign.  The count reads the number
    of entries that are not completed. *)
Theorem page_shows_list (es : list event) (s : state) :
  rendered s →
  length (todoList (run es s)) = length (todos (run es s))
  ∧ (∀ k t, todos (run es s) !! k = Some t →
       todoList (run es s) !! k
       = Some ((10 :: replicate 16 32)%N
               ++ JS.units "<input type=" ++ [34%N] ++ JS.units "checkbox"
               ++ [34%N] ++ JS.units " class=" ++ [34%N]
               ++ JS.units "todo-checkbox" ++ [34%N] ++ [32%N]
               ++ (10 :: replicate 23 32)%N
               ++ (if completed t then JS.units "checked" else []) ++ [32%N]
               ++ (10 :: replicate 23 32)%N
               ++ JS.units "data-id=" ++ [34%N]
               ++ JS.units (JS.toString (id t)) ++ [34%N] ++ JS.units ">"
               ++ (10 :: replicate 16 32)%N
               ++ JS.units "<span class=" ++ [34%N] ++ JS.units "todo-text "
               ++ (if completed t then JS.units "completed" else [])
               ++ [34%N] ++ JS.units ">" ++ text t ++ JS.units "</span>"
               ++ (10 :: replicate 16 32)%N
               ++ JS.units "<button class=" ++ [34%N]
               ++ JS.units "todo-delete" ++ [34%N] ++ JS.units " data-id="
               ++ [34%N] ++ JS.units (JS.toString (id t)) ++ [34%N]
               ++ JS.units ">" ++ [215%N] ++ JS.units "</button>"
               ++ (10 :: replicate 12 32)%N))
  ∧ todoCount (run es s)
    = JS.toString
        (Z.of_nat (length (filter (λ t, completed t = false) (todos (run es s))))).
Proof.
  intros H. assert (rendered (run es s)) as [Hl Hc].
  { revert s H. induction es as [|e es IH]; intros s H; [done|].
    cbn [run foldl]. apply IH. by apply handle_rendered. }
  split; [by rewrite Hl, length_fmap|]. split.
  - intros k t Hk. rewrite Hl, list_lookup_fmap, Hk. reflexivity.
  - rewrite Hc. unfold remainingCount. do 3 f_equal.
    apply list_filter_iff. intros t. by destruct (completed t).
Qed.

Lemma page_shows_list_witness :
  length (todoList list_Study_Read) = 2%nat
  ∧ todoCount list_Study_Read = "2"%string.
Proof.
  destruct (page_shows_list
              [Type_ (JS.units "  Study "); Add 1000; Type_ (JS.units "Read"); Add 2000]
              (initial [] [] "0")) as (Hn & _ & Hc).
  - split; reflexivity.
  - unfold list_Study_Read. split; [rewrite Hn|rewrite Hc]; vm_compute; reflexivity.
Defined.

(** *** Toggling and deleting *)

Lemma toggleCompleted_twice t : toggleCompleted (toggleCompleted t) = t.
Proof. destruct t as [i x c ts]. unfold toggleCompleted. cbn. by rewrite negb_involutive. Qed.

Lemma list_find_insert_toggle (n : JS.number) (l : list Todo) k t :
  list_find (λ t, JS.strict_eq n (id t)) l = Some (k, t) →
  list_find (λ t, JS.strict_eq n (id t)) (<[k := toggleCompleted t]> l)
  = Some (k, toggleCompleted t).
Proof.
  intros (Hk & HP & Hfirst)%list_find_Some. apply list_find_Some.
  split; [apply list_lookup_insert_eq; by apply lookup_lt_Some in Hk|].
  split; [done|]. intros j u Hu Hj.
  rewrite list_lookup_insert_ne in Hu by lia. by apply (Hfirst j).
Qed.

(** X17. Toggling the same id twice gives the list back: the entry is as
    it was, and when the page showed the list before, nothing at all has
    changed.  This holds for every id, present or not. *)
Theorem toggleTodo_twice (n : JS.number) (s : state) :
  todos (toggleTodo n (toggleTodo n s)) = todos s
  ∧ (rendered s → toggleTodo n (toggleTodo n s) = s).
Proof.
  destruct (list_find (λ t, JS.strict_eq n (id t)) (todos s)) as [[k t]|] eqn:E.
  - pose proof (list_find_insert_toggle n (todos s) k t E) as E'.
    assert (toggleTodo n (toggleTodo n s) = updateTodoCount (renderTodos s)) as Heq.
    { rewrite (toggleTodo_found n s k t E).
      rewrite (toggleTodo_found n _ k (toggleCompleted t));
        [|by rewrite renderTodos_eq].
      rewrite !renderTodos_eq. cbn.
      rewrite list_insert_insert_eq, toggleCompleted_twice.
      apply list_find_Some in E as [Hk _].
      rewrite list_insert_id by done. by destruct s. }
    rewrite Heq. split; [by rewrite renderTodos_eq|apply rendered_fixed].
  - unfold toggleTodo. by rewrite E, E.
Qed.

Lemma remaining_insert (l : list Todo) k t n v items c :
  l !! k = Some t →
  (if completed t
   then remainingCount (mkState (<[k := toggleCompleted t]> l) n v items c)
        = S (remainingCount (mkState l n v items c))
   else S (remainingCount (mkState (<[k := toggleCompleted t]> l) n v items c))
        = remainingCount (mkState l n v items c)).
Proof.
  intros Hk. unfold remainingCount. cbn [todos].
  assert (length (filter (λ u, negb (completed u)) l)
          = (length (filter (λ u, negb (completed u)) (take k l))
             + length (filter (λ u, negb (completed u)) [t])
             + length (filter (λ u, negb (completed u)) (drop (S k) l)))%nat) as H2.
  { rewrite <- (take_drop_middle l k t Hk) at 1.
    rewrite filter_app, length_app. change (t :: drop (S k) l) with ([t] ++ drop (S k) l).
    rewrite filter_app, length_app. lia. }
  assert (length (filter (λ u, negb (completed u)) (<[k := toggleCompleted t]> l))
          = (length (filter (λ u, negb (completed u)) (take k l))
             + length (filter (λ u, negb (completed u)) [toggleCompleted t])
             + length (filter (λ u, negb (completed u)) (drop (S k) l)))%nat) as H1.
  { rewrite insert_take_drop by (by apply lookup_lt_Some in Hk).
    rewrite filter_app, length_app.
    change (toggleCompleted t :: drop (S k) l)
      with ([toggleCompleted t] ++ drop (S k) l).
    rewrite filter_app, length_app. lia. }
  rewrite H1, H2. rewrite !filter_cons, !filter_nil. cbn [completed toggleCompleted].
  destruct (completed t); cbn; repeat case_decide; try tauto; cbn; lia.
Qed.

(** X18. Toggling an entry moves the count of entries still to do by
    exactly one: down when the entry was not completed, up when it was;
    the page shows the new count. *)
Theorem toggleTodo_moves_count (n : Z) (s : state) (k : nat) (t : Todo) :
  todos s !! k = Some t → id t = n →
  (∀ j u, (j < k)%nat → todos s !! j = Some u → id u ≠ n) →
  (if completed t
   then remainingCount (toggleTodo (JS.Int n) s) = S (remainingCount s)
   else S (remainingCount (toggleTodo (JS.Int n) s)) = remainingCount s)
  ∧ todoCount (toggleTodo (JS.Int n) s)
    = JS.toString (Z.of_nat (remainingCount (toggleTodo (JS.Int n) s))).
Proof.
  intros Hk Hn Hfirst.
  rewrite (toggleTodo_found _ s k t) by (by apply find_first).
  rewrite renderTodos_eq. split; [|done].
  destruct s as [l c v items ct]. cbn in Hk.
  pose proof (remaining_insert l k t c v items ct Hk) as H.
  unfold updateTodoCount, set_todoList, set_todos, remainingCount in *.
  cbn in *. exact H.
Qed.

Lemma toggleTodo_moves_count_witness :
  remainingCount (toggleTodo (JS.Int 1) list_Study_Read) = 1%nat.
Proof.
  destruct (toggleTodo_moves_count 1 list_Study_Read 1 (mkTodo 1 (JS.units "Read") false 2000))
    as [H _].
  - reflexivity.
  - reflexivity.
  - intros j u Hj Hu. assert (j = 0%nat) as -> by lia.
    vm_compute in Hu. injection Hu as <-. discriminate.
  - cbn in H. vm_compute in H. vm_compute. congruence.
Defined.

(** X19. Deleting the entry that was just added gives the list back as it
    was before the add, also when the entry has been toggled in between;
    only the counter remembers: it stays one up. *)
Theorem add_then_delete (now : Z) (s : state) :
  ids_ok s → JS.trim (todoInput s) ≠ [] →
  todos (deleteTodo (JS.Int (todoIdCounter s)) (addTodo now s)) = todos s
  ∧ todos (deleteTodo (JS.Int (todoIdCounter s))
             (toggleTodo (JS.Int (todoIdCounter s)) (addTodo now s))) = todos s
  ∧ todoIdCounter (deleteTodo (JS.Int (todoIdCounter s)) (addTodo now s))
    = todoIdCounter s + 1.
Proof.
  intros [Hs Hb] Hne.
  assert (Forall (λ t, ¬ JS.strict_eq (JS.Int (todoIdCounter s)) (id t)) (todos s))
    as Habs.
  { apply absent_Int. eapply Forall_impl; [exact Hb|]. cbn. intros t Ht. lia. }
  assert (∀ l, id <$> l = id <$> todos (addTodo now s) →
               filter (λ t, negb (JS.strict_eq (JS.Int (todoIdCounter s)) (id t))) l
               = take (length (todos s)) l) as Hfilter.
  { rewrite addTodo_eq, renderTodos_eq by done. cbn. intros l Hl.
    rewrite fmap_app in Hl. cbn in Hl.
    apply fmap_app_inv in Hl as (l1 & l2 & H1 & H2 & ->).
    destruct l2 as [|u [|? ?]]; try discriminate. cbn in H2. injection H2 as Hu.
    assert (length l1 = length (todos s)) as Hlen
        by (by rewrite <- (length_fmap id l1), <- H1, length_fmap).
    rewrite filter_app, filter_cons_False, filter_nil, app_nil_r.
    - rewrite <- Hlen, take_app_length.
      apply (filter_absent (JS.Int (todoIdCounter s)) l1).
      apply (Forall_fmap id (λ x, ¬ JS.strict_eq (JS.Int (todoIdCounter s)) x)).
      rewrite <- H1.
      by apply (Forall_fmap id (λ x, ¬ JS.strict_eq (JS.Int (todoIdCounter s)) x)).
    - intros H%negb_prop_elim. apply H. by apply strict_eq_Int. }
  split; [|split].
  - rewrite deleteTodo_todos, Hfilter by done.
    rewrite addTodo_eq, renderTodos_eq by done. cbn. by rewrite take_app_length.
  - rewrite deleteTodo_todos, Hfilter by apply toggleTodo_ids.
    assert (take (length (todos s)) (todos (toggleTodo (JS.Int (todoIdCounter s)) (addTodo now s)))
            = todos s) as Ht; [|done].
    rewrite addTodo_eq, renderTodos_eq by done.
    set (new := mkTodo _ _ _ _).
    rewrite (toggleTodo_found _ _ (length (todos s)) new).
    + rewrite renderTodos_eq. cbn.
      rewrite insert_app_r_alt by lia. rewrite Nat.sub_diag. cbn.
      by rewrite take_app_length.
    + cbn. apply find_first; [by rewrite lookup_app_r, Nat.sub_diag by lia|done|].
      intros j u Hj Hu. rewrite lookup_app_l in Hu by done.
      rewrite Forall_forall in Hb. apply list_elem_of_lookup_2 in Hu.
      specialize (Hb u Hu). lia.
  - rewrite deleteTodo_todoIdCounter, addTodo_eq, renderTodos_eq by done. done.
Qed.

Lemma add_then_delete_witness :
  todos (deleteTodo (JS.Int 2) (addTodo 3000 (set_todoInput (JS.units " Walk") list_Study_Read)))
  = [mkTodo 0 (JS.units "Study") false 1000; mkTodo 1 (JS.units "Read") false 2000].
Proof.
  destruct (add_then_delete 3000 (set_todoInput (JS.units " Walk") list_Study_Read)) as [H _].
  - apply (handle_ids_ok (Type_ (JS.units " Walk"))), run_ids_ok, initial_ids_ok.
  - vm_compute. discriminate.
  - exact H.
Defined.

(** X20. After [deleteTodo] no entry has the id; the entries that are
    left are those of the list before, in their order; the page shows
    them; and deleting the same id again changes nothing. *)
Theorem deleteTodo_removes (n : JS.number) (s : state) :
  Forall (λ t, JS.strict_eq n (id t) = false) (todos (deleteTodo n s))
  ∧ sublist (todos (deleteTodo n s)) (todos s)
  ∧ (remainingCount (deleteTodo n s) ≤ remainingCount s)%nat
  ∧ rendered (deleteTodo n s)
  ∧ deleteTodo n (deleteTodo n s) = deleteTodo n s.
Proof.
  assert (Forall (λ t, ¬ JS.strict_eq n (id t)) (todos (deleteTodo n s))) as Habs.
  { rewrite deleteTodo_todos. apply Forall_forall.
    intros t [Ht _]%list_elem_of_filter. by apply negb_prop_elim. }
  split; [|split; [|split; [|split]]].
  - eapply Forall_impl; [exact Habs|]. cbn. intros t Ht.
    destruct (JS.strict_eq n (id t)); [by destruct Ht|done].
  - rewrite deleteTodo_todos. apply sublist_filter.
  - unfold remainingCount. rewrite deleteTodo_todos.
    rewrite list_filter_filter. apply sublist_length.
    induction (todos s) as [|t l IH]; [done|].
    rewrite !filter_cons.
    destruct (decide (_ ∧ _)) as [[H1 H2]|H].
    + rewrite decide_True by done. by apply sublist_skip.
    + destruct (decide (negb (completed t))); [by apply sublist_cons|done].
  - apply rendered_after.
  - unfold deleteTodo at 1. cbv zeta. rewrite filter_absent by done.
    replace (set_todos (todos (deleteTodo n s)) (deleteTodo n s))
      with (deleteTodo n s) by (by destruct (deleteTodo n s)).
    apply rendered_fixed, rendered_after.
Qed.

End TodoRuns.

(** ** Clicks on rendered items *)

Module TodoClicks.
Import Todo TodoDom TodoFacts.

(** *** Reading back the numeral [toString] writes *)

Lemma parseDigits_acc (d : Decimal.uint) (a : positive) :
  parseDigits 10 (Some (Z.pos a)) (JS.units (NilEmpty.string_of_uint d))
  = Some (Z.pos (Pos.of_uint_acc d a)).
Proof.
  revert a. induction d as [|d IH|d IH|d IH|d IH|d IH|d IH|d IH|d IH|d IH|d IH];
    intros a; [done|..];
    cbn [NilEmpty.string_of_uint JS.units parseDigits Pos.of_uint_acc];
    change (digitValue 10 _) with (Some 0) || change (digitValue 10 _) with (Some 1)
    || change (digitValue 10 _) with (Some 2) || change (digitValue 10 _) with (Some 3)
    || change (digitValue 10 _) with (Some 4) || change (digitValue 10 _) with (Some 5)
    || change (digitValue 10 _) with (Some 6) || change (digitValue 10 _) with (Some 7)
    || change (digitValue 10 _) with (Some 8) || change (digitValue 10 _) with (Some 9);
    unfold default; cbn [from_option Datatypes.id];
    rewrite <- IH; f_equal; try (apply f_equal; lia).
Qed.

Lemma uint_Nil_or_not (d : Decimal.uint) : d = Decimal.Nil ∨ d ≠ Decimal.Nil.
Proof. destruct d; [by left|by right..]. Qed.

Lemma parseDigits_numeral (d : Decimal.uint) (acc : option Z) :
  d ≠ Decimal.Nil → default 0 acc = 0 →
  parseDigits 10 acc (JS.units (NilEmpty.string_of_uint d))
  = Some (Z.of_N (Pos.of_uint d)).
Proof.
  revert acc. induction d as [|d IH|d IH|d IH|d IH|d IH|d IH|d IH|d IH|d IH|d IH];
    intros acc Hd Hacc; [done|..];
    cbn [NilEmpty.string_of_uint JS.units parseDigits Pos.of_uint];
    change (digitValue 10 _) with (Some 0) || change (digitValue 10 _) with (Some 1)
    || change (digitValue 10 _) with (Some 2) || change (digitValue 10 _) with (Some 3)
    || change (digitValue 10 _) with (Some 4) || change (digitValue 10 _) with (Some 5)
    || change (digitValue 10 _) with (Some 6) || change (digitValue 10 _) with (Some 7)
    || change (digitValue 10 _) with (Some 8) || change (digitValue 10 _) with (Some 9);
    rewrite Hacc, Z.mul_0_r, Z.add_0_l;
    [|by rewrite parseDigits_acc..].
  destruct (uint_Nil_or_not d) as [->|Hne]; [done|].
  by apply IH.
Qed.

Lemma numeral_plain (d : Decimal.uint) :
  JS.trimStart (JS.units (NilZero.string_of_uint d))
  = JS.units (NilZero.string_of_uint d)
  ∧ stripSign (JS.units (NilZero.string_of_uint d)) = (1, JS.units (NilZero.string_of_uint d))
  ∧ stripPrefix (JS.units (NilZero.string_of_uint d)) = (10, JS.units (NilZero.string_of_uint d)).
Proof.
  destruct d as [|d|d|d|d|d|d|d|d|d|d];
    try (repeat split; reflexivity).
  destruct d; repeat split; reflexivity.
Qed.

Lemma parse_numeral (d : Decimal.uint) :
  parseDigits 10 None (JS.units (NilZero.string_of_uint d)) = Some (Z.of_N (Pos.of_uint d)).
Proof.
  destruct (uint_Nil_or_not d) as [->|Hne]; [done|].
  replace (JS.units (NilZero.string_of_uint d)) with (JS.units (NilEmpty.string_of_uint d))
    by (by destruct d).
  by apply parseDigits_numeral.
Qed.

Lemma parseInt_toString (z : Z) : parseInt (JS.units (JS.toString z)) = JS.Int z.
Proof.
  unfold JS.toString. destruct z as [|p|p]; [done|..]; cbn [Z.to_int NilZero.string_of_int].
  - unfold parseInt. destruct (numeral_plain (Pos.to_uint p)) as (-> & -> & ->).
    rewrite parse_numeral, DecimalPos.Unsigned.of_to. done.
  - unfold parseInt. cbn [JS.units JS.trimStart].
    change (JS.isWhiteSpace _) with false.
    change (N.of_nat (Ascii.nat_of_ascii _)) with 45%N. cbn [stripSign].
    destruct (numeral_plain (Pos.to_uint p)) as (_ & _ & ->).
    rewrite parse_numeral, DecimalPos.Unsigned.of_to. done.
Qed.

(** X21. The ids survive the trip through the page.  [renderTodos]
    writes the id of an entry, as a decimal numeral, into the [data-id]
    of its checkbox and of its delete button; [parseInt] reads the id
    back from that numeral; and with distinct ids a click on an element
    of class [todo-checkbox] carrying it puts the entry with its
    completed flag negated in the entry's place, a click on an element of
    class [todo-delete] carrying it takes exactly that entry out. *)
Theorem click_hits_its_entry (k : nat) (t : Todo) (s : state) :
  NoDup (id <$> todos s) → todos s !! k = Some t →
  parseInt (JS.units (JS.toString (id t))) = JS.Int (id t)
  ∧ todos (clickCheckbox (JS.units (JS.toString (id t))) s)
    = <[k := mkTodo (id t) (text t) (negb (completed t)) (timestamp t)]> (todos s)
  ∧ todos (clickDelete (JS.units (JS.toString (id t))) s) = delete k (todos s).
Proof.
  intros Hnd Hk. split; [apply parseInt_toString|].
  unfold clickCheckbox, clickDelete.
  rewrite parseInt_toString. cbn [handleTodoClick]. split.
  - rewrite (toggleTodo_found _ s k t); [by rewrite renderTodos_eq|].
    apply find_first; [done|done|]. by apply unique_is_first with t.
  - rewrite deleteTodo_todos. by apply filter_present with t.
Qed.

Lemma click_hits_its_entry_witness :
  todos (clickDelete (JS.units "1") list_Study_Read)
  = [mkTodo 0 (JS.units "Study") false 1000]
  ∧ todos (clickCheckbox (JS.units "1") list_Study_Read)
    = [mkTodo 0 (JS.units "Study") false 1000; mkTodo 1 (JS.units "Read") true 2000].
Proof.
  destruct (click_hits_its_entry 1 (mkTodo 1 (JS.units "Read") false 2000)
              list_Study_Read) as (_ & Hc & Hd).
  - apply ids_ok_NoDup, run_ids_ok, initial_ids_ok.
  - reflexivity.
  - split; [exact Hd|exact Hc].
Defined.

End TodoClicks.
